(** * dubbo-server: routing, dispatch pipeline, registration and lifecycle

    A shallow embedding of [packages/dubbo-service/src/dubbo-server.ts].
    JavaScript objects that the server shares and mutates (the exposed
    service objects) live in an explicit store; asynchronous code is
    written in the order in which its statements run, every [await]
    being a sequencing point; calls into the collaborators (registry,
    listener, readiness promise) are recorded in an event log. *)

From stdpp Require Import base option list strings gmap pretty.
From Stdlib Require Import ZArith Ascii String Lia.

Local Open Scope string_scope.
Local Open Scope Z_scope.

(** ** JavaScript values that cross the server *)

Inductive value :=
  | VUndefined
  | VNull
  | VBool (b : bool)
  | VNum (n : Z)
  | VStr (s : string)
  | VError (name message : string)
  | VObj (id : nat).

(** [new Error(msg)] and the engine's [TypeError]. *)
Definition Error (msg : string) : value := VError "Error" msg.
Definition TypeError (msg : string) : value := VError "TypeError" msg.

(** How a call ends: with a value or with a thrown value. *)
Inductive completion (A : Type) :=
  | Return (a : A)
  | Throw (e : value).
Arguments Return {A} a.
Arguments Throw {A} e.

(** Modelled from the spec: the enumeration DUBBO_RESPONSE_STATUS
    (package dubbo-serialization) is not among the sources; the server
    uses the three members below. *)
Inductive DUBBO_RESPONSE_STATUS := OK | SERVICE_NOT_FOUND | SERVER_ERROR.

(** Modelled from the spec: the type [Request] (package
    dubbo-serialization) is not among the sources;
    [decodeRequest(frame) -> {methodName, args, attachment:{path, group,
    version}}].  A field that the attachment omits is [None]. *)
Record Attachment := {
  path : string;
  att_group : option string;
  att_version : option string
}.

Record Request := {
  methodName : string;
  args : option (list value);
  attachment : Attachment
}.

(** Modelled from the spec: the class [Context] (./context) is not among
    the sources; it is created fresh per inbound request and holds the
    decoded request, a response status code and a response body.  A
    field nobody has assigned yet is [None]. *)
Record Context := {
  request : Request;
  status : option DUBBO_RESPONSE_STATUS;
  body : option value
}.

Definition new_Context (r : Request) : Context :=
  {| request := r; status := None; body := None |}.

Definition set_status (st : DUBBO_RESPONSE_STATUS) (c : Context) : Context :=
  {| request := request c; status := Some st; body := body c |}.

Definition set_body (v : value) (c : Context) : Context :=
  {| request := request c; status := status c; body := Some v |}.

(** ** Service descriptors *)

(** A method of a service: called with the request's arguments followed
    by the context. *)
Definition Handler := list value → Context → completion value.

(** Modelled from the spec: the type [IDubboService] (./types) is not
    among the sources; a descriptor has an interface name, a group and a
    version (both unset until registration assigns them) and a table
    from method name to handler, kept in key order.  The table is an
    ordinary object: [methods] lists its own keys, and it inherits the
    members of [Object.prototype]. *)
Record IDubboService := {
  dubboInterface : string;
  group : option string;
  version : option string;
  methods : list (string * Handler)
}.

Definition set_meta (g v : string) (s : IDubboService) : IDubboService :=
  {| dubboInterface := dubboInterface s;
     group := Some g;
     version := Some v;
     methods := methods s |}.

(** The handler stored under an own key of the table, if there is
    one. *)
Fixpoint get_method (name : string) (ms : list (string * Handler))
  : option Handler :=
  match ms with
  | [] => None
  | (k, h) :: ms' => if String.eqb k name then Some h else get_method name ms'
  end.

(** The names that every ordinary object inherits:
    [Object.getOwnPropertyNames(Object.prototype)].  Each of them reads
    as a function or, for [__proto__], as an object. *)
Definition Object_prototype_names : list string :=
  [ "constructor"; "__defineGetter__"; "__defineSetter__"; "hasOwnProperty";
    "__lookupGetter__"; "__lookupSetter__"; "isPrototypeOf";
    "propertyIsEnumerable"; "toString"; "valueOf"; "__proto__";
    "toLocaleString" ].

(** What a property read on the method table gives when it is not
    [undefined]: a handler of the table, or an inherited member. *)
Inductive member :=
  | Own (f : Handler)
  | Inherited (name : string).

(** [methods[name]]: an own key first, then [Object.prototype];
    [None] is [undefined]. *)
Definition get_member (name : string) (ms : list (string * Handler))
  : option member :=
  match get_method name ms with
  | Some f => Some (Own f)
  | None =>
      if bool_decide (name ∈ Object_prototype_names)
      then Some (Inherited name)
      else None
  end.

(** [Object.keys(methods)] *)
Definition method_names (s : IDubboService) : list string :=
  (methods s).*1.

(** The service objects are shared between the service map, the router
    and the application: they live in a store, addressed by reference. *)
Definition loc := nat.
Definition store := loc → IDubboService.

Definition store_set (l : loc) (s : IDubboService) (h : store) : store :=
  λ l', if Nat.eqb l' l then s else h l'.

(** ** Routing: [matchService] *)

(** The predicate passed to [serviceList.find]; what [methods[name]]
    reads is a function or an object, so it counts as true whenever it
    is not [undefined]. *)
Definition matches (name g v : string) (s : IDubboService) : bool :=
  let isSameVersion := String.eqb v "*" || bool_decide (version s = Some v) in
  let isSameGroup := bool_decide (Some g = group s) in
  bool_decide (is_Some (get_member name (methods s)))
  && isSameGroup && isSameVersion.

(** [Array.prototype.find] over a list of references. *)
Fixpoint find_ref (p : IDubboService → bool) (h : store) (ls : list loc)
  : option loc :=
  match ls with
  | [] => None
  | l :: ls' => if p (h l) then Some l else find_ref p h ls'
  end.

Definition matchService (h : store) (serviceRouter : gmap string (list loc))
    (request : Request) : option loc :=
  let name := methodName request in
  let p := path (attachment request) in
  let g := default "" (att_group (attachment request)) in
  let v := default "0.0.0" (att_version (attachment request)) in
  let serviceList := default [] (serviceRouter !! p) in
  find_ref (matches name g v) h serviceList.

(** ** The middleware pipeline *)

(** State threaded through a composed chain: the request's context (one
    mutable object, seen by every middleware) and the private counter
    [index] of koa-compose. *)
Record PipeState := {
  ctx : Context;
  index : Z
}.

(** Computations that read and write the pipeline state and may throw.
    A thrown value leaves the writes done so far in place. *)
Definition M (A : Type) : Type := PipeState → PipeState * completion A.

Global Instance M_ret : MRet M := λ A a st, (st, Return a).

Global Instance M_bind : MBind M := λ A B k m st,
  match m st with
  | (st', Return a) => k a st'
  | (st', Throw e) => (st', Throw e)
  end.

Definition throw {A} (e : value) : M A := λ st, (st, Throw e).

(** [try { m } catch (err) { k err }] *)
Definition try_catch {A} (m : M A) (k : value → M A) : M A :=
  λ st, match m st with
        | (st', Return a) => (st', Return a)
        | (st', Throw e) => k e st'
        end.

Definition get_ctx : M Context := λ st, (st, Return (ctx st)).

Definition modify_ctx (f : Context → Context) : M unit :=
  λ st, ({| ctx := f (ctx st); index := index st |}, Return ()).

(** What [this] is inside a function.  koa-compose calls a middleware as
    a plain function, [fn(context, next)], and the functions of a class
    body are strict code, so there [this] is [undefined]. *)
Inductive receiver :=
  | ThisUndefined
  | ThisContext.

(** [this.body = v] *)
Definition this_set_body (this : receiver) (v : value) : M unit :=
  match this with
  | ThisContext => modify_ctx (set_body v)
  | ThisUndefined =>
      throw (TypeError "Cannot set properties of undefined (setting 'body')")
  end.

(** A middleware [(ctx, next) => ...]; the context is in the state. *)
Definition Middleware := receiver → M unit → M unit.

(** koa-compose: [dispatch(i)] over the middlewares from position [i]
    on.  Past the last one, [fn] is the [next] of the composed function,
    which the server does not pass. *)
Fixpoint dispatch (middleware : list Middleware) (i : Z) : M unit :=
  λ st,
    if bool_decide (i ≤ index st)
    then (st, Throw (Error "next() called multiple times"))
    else
      let st := {| ctx := ctx st; index := i |} in
      match middleware with
      | [] => (st, Return ())
      | fn :: rest => fn ThisUndefined (dispatch rest (i + 1)) st
      end.

Definition compose (middleware : list Middleware) (context : Context)
  : Context * completion unit :=
  let '(st, r) := dispatch middleware 0 {| ctx := context; index := -1 |} in
  (ctx st, r).

(** [`${x}`] for a string that may be [undefined]. *)
Definition tmpl (x : option string) : string := default "undefined" x.

Section Dispatch.

(** [util.checkRetValHessian] (package dubbo-common) is not among the
    sources: the predicate "this value is representable in the wire
    value format". *)
Variable checkRetValHessian : value → bool.

(** The built-in members of [Object.prototype] are not part of the
    program: what [member.apply(service, args)] gives for the inherited
    member of that name, called on the service with the request's
    arguments and the context (for [__proto__], which is no function,
    the TypeError of the call). *)
Variable applyInherited :
  string → IDubboService → list value → Context → completion value.

(** [method.apply(service, [...args, ctx])] *)
Definition apply_member (m : member) (service : IDubboService)
    (args : list value) (c : Context) : completion value :=
  match m with
  | Own f => f args c
  | Inherited name => applyInherited name service args c
  end.

(** The terminal step of the chain, a closure over the matched
    [service] and the [request]. *)
Definition handleRequest (h : store) (service : loc) (request : Request)
  : Middleware :=
  λ this _next,
    let p := path (attachment request) in
    let name := methodName request in
    let method := get_member name (methods (h service)) in
    modify_ctx (set_status OK);;
    try_catch
      (c ← get_ctx;
       res ← (match method with
              | Some m =>
                  match apply_member m (h service)
                          (default [] (args request)) c with
                  | Return v => mret v
                  | Throw e => throw e
                  end
              | None =>
                  throw (TypeError
                    "Cannot read properties of undefined (reading 'apply')")
              end);
       if negb (checkRetValHessian res)
       then throw (Error (p +:+ "#" +:+ name +:+
                          " return value not hessian type"))
       else this_set_body this res)
      (λ err, this_set_body this err).

(** Everything after [decodeDubboRequest(data)]: takes the decoded
    request. *)
Definition invokeComposeChainRequest (h : store)
    (serviceRouter : gmap string (list loc))
    (middlewares : list Middleware) (request : Request) : Context :=
  let service := matchService h serviceRouter request in
  let c := new_Context request in
  let name := methodName request in
  let p := path (attachment request) in
  let g := default "" (att_group (attachment request)) in
  let v := att_version (attachment request) in
  match service with
  | None =>
      set_body
        (Error ("Service not found with " +:+ p +:+ " and " +:+ name +:+
                ", group:" +:+ g +:+ ", version:" +:+ tmpl v))
        (set_status SERVICE_NOT_FOUND c)
  | Some service =>
      let middlewares :=
        (middlewares ++ [handleRequest h service request])%list in
      let fn := compose middlewares in
      match fn c with
      | (c', Return _) => c'
      | (c', Throw err) => set_body err (set_status SERVER_ERROR c')
      end
  end.

End Dispatch.

(** ** Registration URLs: [buildUrl] *)

(** Node's [querystring]: the characters [escape] leaves as they are. *)
Definition unreserved (c : ascii) : bool :=
  let n := N_of_ascii c in
  ((48 <=? n) && (n <=? 57) || (65 <=? n) && (n <=? 90)
   || (97 <=? n) && (n <=? 122))%N
  || bool_decide (c ∈ list_ascii_of_string "-_.!~*'()").

Definition hex_digit (n : N) : ascii :=
  if (n <? 10)%N then ascii_of_N (48 + n) else ascii_of_N (55 + n).

(** [querystring.escape]: percent-encoding, byte by byte. *)
Fixpoint escape (s : string) : string :=
  match s with
  | EmptyString => EmptyString
  | String c s' =>
      if unreserved c then String c (escape s')
      else
        let n := N_of_ascii c in
        String "%" (String (hex_digit (n / 16))
                      (String (hex_digit (n mod 16)) (escape s')))
  end.

(** The values the server puts in a query object. *)
Inductive qvalue :=
  | QStr (s : string)
  | QNum (n : Z)
  | QBool (b : bool)
  | QUndefined.

Definition stringifyPrimitive (v : qvalue) : string :=
  match v with
  | QStr s => s
  | QNum n => pretty n
  | QBool true => "true"
  | QBool false => "false"
  | QUndefined => ""
  end.

(** [Array.prototype.join(sep)] *)
Fixpoint join (sep : string) (l : list string) : string :=
  match l with
  | [] => ""
  | [x] => x
  | x :: l' => x +:+ sep +:+ join sep l'
  end.

(** [querystring.stringify(obj)] for an object of primitive values,
    given as its entries in key order. *)
Definition qs_pair (kv : string * qvalue) : string :=
  escape kv.1 +:+ "=" +:+ escape (stringifyPrimitive kv.2).

Definition qs_stringify (obj : list (string * qvalue)) : string :=
  join "&" (qs_pair <$> obj).

Definition qopt (x : option string) : qvalue :=
  match x with Some s => QStr s | None => QUndefined end.

(** What the process and the host answer: [ip.address()], [process.pid]
    and the successive readings of [Date.now()]. *)
Record Env := {
  ip_address : string;
  process_pid : Z;
  Date_now : nat → Z
}.

(** [`${this.port}`] *)
Definition tmpl_num (x : option Z) : string :=
  match x with Some n => pretty n | None => "undefined" end.

(** The query object of [buildUrl]; [k] counts the clock readings. *)
Definition url_query (env : Env) (k : nat) (service : IDubboService)
  : list (string * qvalue) :=
  let methodName := join "," (method_names service) in
  [ ("group", qopt (group service));
    ("version", qopt (version service));
    ("method", QStr methodName);
    ("side", QStr "provider");
    ("pid", QNum (process_pid env));
    ("generic", QBool false);
    ("protocal", QStr "dubbo");
    ("dynamic", QBool true);
    ("category", QStr "providers");
    ("anyhost", QBool true);
    ("timestamp", QNum (Date_now env k)) ].

Definition buildUrl (env : Env) (port : option Z) (k : nat)
    (service : IDubboService) : string :=
  let ipAddr := ip_address env in
  "dubbo://" +:+ ipAddr +:+ ":" +:+ tmpl_num port +:+ "/" +:+
  dubboInterface service +:+ "?" +:+ qs_stringify (url_query env k service).

(** ** Registration: the loop of [registerServices] *)

(** Modelled from the spec: the class [DubboSetting] (./dubbo-setting)
    is not among the sources;
    [getSetting({shortName, interfaceName}) -> {group, version}]. *)
Definition DubboSetting := string → string → string * string.

(** What the loop has built so far: the store with the metadata written
    into the service objects, the router, and [registrySerivceList]. *)
Definition reg_acc : Type :=
  store * gmap string (list loc) * list (string * string).

(** One turn of the loop, for the entry [(dubboServiceShortName, service)]
    of the service map. *)
Definition register_one (env : Env) (port : option Z)
    (dubboSetting : option DubboSetting) (k : nat) (entry : string * loc)
    (acc : reg_acc) : reg_acc :=
  let '(h, serviceRouter, registrySerivceList) := acc in
  let '(dubboServiceShortName, service) := entry in
  let meta :=
    match dubboSetting with
    | Some getDubboSetting =>
        getDubboSetting dubboServiceShortName (dubboInterface (h service))
    | None => ("", "0.0.0")
    end in
  let h := store_set service (set_meta meta.1 meta.2 (h service)) h in
  let iface := dubboInterface (h service) in
  let serviceRouter :=
    match serviceRouter !! iface with
    | Some l => <[iface := (l ++ [service])%list]> serviceRouter
    | None => <[iface := [service]]> serviceRouter
    end in
  let dubboServiceUrl := buildUrl env port k (h service) in
  (h, serviceRouter,
   (registrySerivceList ++ [(iface, dubboServiceUrl)])%list).

(** The loop over [Object.entries(this.services)]. *)
Fixpoint register_loop (env : Env) (port : option Z)
    (dubboSetting : option DubboSetting) (k : nat)
    (entries : list (string * loc)) (acc : reg_acc) : reg_acc :=
  match entries with
  | [] => acc
  | e :: es =>
      register_loop env port dubboSetting (S k) es
        (register_one env port dubboSetting k e acc)
  end.

(** ** The server object and its lifecycle *)

(** A promise is pending until its first [resolve] or [reject]; later
    calls change nothing. *)
Inductive promise :=
  | Pending
  | Fulfilled
  | Rejected (e : value).

Definition promise_resolve (p : promise) : promise :=
  match p with Pending => Fulfilled | _ => p end.

Definition promise_reject (e : value) (p : promise) : promise :=
  match p with Pending => Rejected e | _ => p end.

(** How the call [registry.registyServices(list)] ends.  The server
    neither awaits nor returns what the call gives back: if that is a
    promise and it rejects, nobody handles the rejection. *)
Inductive announce_outcome :=
  | AnnounceReturns
  | AnnounceRejects (e : value)
  | AnnounceThrows (e : value).

(** The registry collaborator, as far as the server can tell: how the
    promise of its [ready()] ends and how the call of its
    [registyServices] ends.  Its [close()] is only logged. *)
Record IRegistry := {
  registry_ready : completion unit;
  registry_registyServices : announce_outcome
}.

(** Modelled from the spec: the class [Retry] (package dubbo-common) is
    not among the sources; a bounded retry policy that counts the
    consecutive failures, retries below the configured maximum, signals
    exhaustion at it, and is reset to zero by a success. *)
Record Retry := {
  retryNum : nat;
  maxRetryNum : nat
}.

Inductive retry_step := RetryAgain | RetryEnd.

Definition Retry_start (r : Retry) : Retry * retry_step :=
  if (retryNum r <? maxRetryNum r)%nat
  then ({| retryNum := S (retryNum r); maxRetryNum := maxRetryNum r |},
        RetryAgain)
  else (r, RetryEnd).

Definition Retry_reset (r : Retry) : Retry :=
  {| retryNum := 0; maxRetryNum := maxRetryNum r |}.

(** What happens at the server's boundary, in order: the calls it makes
    on its collaborators, the listener's report that it is bound, and
    the rejections of promises that nobody handles (which, unless the
    process is set up otherwise, end it on Node 15 and later). *)
Inductive event :=
  | EvListen (port : Z)
  | EvBound
  | EvReadyResolve
  | EvReadyReject (e : value)
  | EvRegistryReady
  | EvRegistyServices (l : list (string * string))
  | EvUnhandledRejection (e : value)
  | EvRegistryClose
  | EvServerClose.

(** Modelled from the spec: the type [IDubboServerProps] (./types) is
    not among the sources; a registry handle, a mapping of exposed
    services and an optional setting lookup.  The service map is given
    by its entries, each a short name and a reference to the service
    object; what the caller left out is [None]. *)
Record IDubboServerProps := {
  props_registry : option IRegistry;
  props_services : option (list (string * loc));
  props_dubboSetting : option DubboSetting
}.

(** The fields of the class.  The listener [server] is known by the
    port it was asked to listen on. *)
Record DubboServer := {
  readyPromise : promise;
  retry : Retry;
  port : option Z;
  server : option Z;
  dubboSetting : option DubboSetting;
  registry : option IRegistry;
  services : option (list (string * loc));
  serviceRouter : gmap string (list loc);
  middlewares : list Middleware
}.

(** The server together with the service objects it shares with the
    application and the log of its calls. *)
Record World := {
  srv : DubboServer;
  objects : store;
  log : list event
}.

(** Modelled from the spec: [util.isObj] (package dubbo-common) is not
    among the sources; on a property that is either absent or an object
    it tells the absent one. *)
Definition isObj {A} (x : option A) : bool :=
  match x with Some _ => true | None => false end.

Definition checkProps (props : IDubboServerProps) : completion unit :=
  if negb (isObj (props_registry props))
  then Throw (Error "Please specify registry, use Zk or Nacos init registry")
  else if negb (isObj (props_services props))
  then Throw (Error "Please specify dubbo service")
  else Return ().

(** The constructor, up to the [listen] it leaves for the next tick.
    [budget] is the maximum the retry container is configured with. *)
Definition new_DubboServer (budget : nat) (props : IDubboServerProps)
  : completion DubboServer :=
  match checkProps props with
  | Throw e => Throw e
  | Return _ =>
      Return {| readyPromise := Pending;
                retry := {| retryNum := 0; maxRetryNum := budget |};
                port := None;
                server := None;
                dubboSetting := props_dubboSetting props;
                registry := props_registry props;
                services := props_services props;
                serviceRouter := ∅;
                middlewares := [] |}
  end.

Definition with_readyPromise (p : promise) (s : DubboServer) : DubboServer :=
  {| readyPromise := p; retry := retry s; port := port s; server := server s;
     dubboSetting := dubboSetting s; registry := registry s;
     services := services s; serviceRouter := serviceRouter s;
     middlewares := middlewares s |}.

Definition with_retry (r : Retry) (s : DubboServer) : DubboServer :=
  {| readyPromise := readyPromise s; retry := r; port := port s;
     server := server s; dubboSetting := dubboSetting s;
     registry := registry s; services := services s;
     serviceRouter := serviceRouter s; middlewares := middlewares s |}.

Definition with_listener (p : Z) (s : DubboServer) : DubboServer :=
  {| readyPromise := readyPromise s; retry := retry s; port := Some p;
     server := Some p; dubboSetting := dubboSetting s;
     registry := registry s; services := services s;
     serviceRouter := serviceRouter s; middlewares := middlewares s |}.

Definition with_serviceRouter (m : gmap string (list loc)) (s : DubboServer)
  : DubboServer :=
  {| readyPromise := readyPromise s; retry := retry s; port := port s;
     server := server s; dubboSetting := dubboSetting s;
     registry := registry s; services := services s;
     serviceRouter := m; middlewares := middlewares s |}.

(** [use(fn)]: a [Middleware] is a function, so the type test passes. *)
Definition use (fn : Middleware) (s : DubboServer) : DubboServer :=
  {| readyPromise := readyPromise s; retry := retry s; port := port s;
     server := server s; dubboSetting := dubboSetting s;
     registry := registry s; services := services s;
     serviceRouter := serviceRouter s;
     middlewares := (middlewares s ++ [fn])%list |}.

Definition on_srv (f : DubboServer → DubboServer) (w : World) : World :=
  {| srv := f (srv w); objects := objects w; log := log w |}.

Definition emit (e : event) (w : World) : World :=
  {| srv := srv w; objects := objects w; log := (log w ++ [e])%list |}.

(** [this.resolve()] and [this.reject(err)] on the readiness promise. *)
Definition resolve (w : World) : World :=
  emit EvReadyResolve
    (on_srv (λ s, with_readyPromise (promise_resolve (readyPromise s)) s) w).

Definition reject (err : value) (w : World) : World :=
  emit (EvReadyReject err)
    (on_srv (λ s, with_readyPromise (promise_reject err (readyPromise s)) s) w).

(** [registerServices]: the world it leaves and how its promise ends. *)
Definition registerServices (env : Env) (w : World)
  : World * completion unit :=
  match registry (srv w) with
  | None =>
      (w, Throw (TypeError
                   "Cannot read properties of undefined (reading 'ready')"))
  | Some r =>
      let w := emit EvRegistryReady w in
      match registry_ready r with
      | Throw err => (w, Throw err)
      | Return _ =>
          match services (srv w) with
          | None =>
              (w, Throw (TypeError
                           "Cannot convert undefined or null to object"))
          | Some entries =>
              let '(h, router, registrySerivceList) :=
                register_loop env (port (srv w)) (dubboSetting (srv w)) 0
                  entries (objects w, serviceRouter (srv w), []) in
              let w :=
                emit (EvRegistyServices registrySerivceList)
                  {| srv := with_serviceRouter router (srv w);
                     objects := h;
                     log := log w |} in
              match registry_registyServices r with
              | AnnounceReturns => (w, Return ())
              | AnnounceRejects e => (emit (EvUnhandledRejection e) w, Return ())
              | AnnounceThrows e => (w, Throw e)
              end
          end
      end
  end.

(** The callback of a successful [listen].  The promise of
    [registerServices] is neither awaited nor handled: if it rejects,
    the rejection is left unhandled. *)
Definition onListening (env : Env) (w : World) : World :=
  let w := resolve w in
  let w := on_srv (λ s, with_retry (Retry_reset (retry s)) s) w in
  match registerServices env w with
  | (w, Return _) => w
  | (w, Throw err) => emit (EvUnhandledRejection err) w
  end.

(** How one attempt to bind ends. *)
Inductive bind_outcome :=
  | Bound
  | BindError (e : value).

(** [listen], driven by what the port allocator and the listener answer
    at each attempt; with no answer left the attempt is still pending. *)
Fixpoint listen (env : Env) (attempts : list (Z * bind_outcome)) (w : World)
  : World :=
  match attempts with
  | [] => w
  | (p, o) :: rest =>
      let w := emit (EvListen p) (on_srv (with_listener p) w) in
      match o with
      | Bound => onListening env (emit EvBound w)
      | BindError _ =>
          match Retry_start (retry (srv w)) with
          | (r, RetryAgain) => listen env rest (on_srv (with_retry r) w)
          | (r, RetryEnd) =>
              reject
                (Error "Oops, dubbo server can not start, can not find available port")
                (on_srv (with_retry r) w)
          end
      end
  end.

(** [close()]: the calls it makes and the promise it returns.
    [closed] is what the listener passes to the close callback: an error
    or nothing.  With no listener no callback is handed out, and nothing
    else holds [resolve] or [reject]. *)
Definition close (closed : option value) (w : World) : World * promise :=
  match registry (srv w) with
  | None =>
      (w, Rejected (TypeError
                      "Cannot read properties of undefined (reading 'close')"))
  | Some _ =>
      let w := emit EvRegistryClose w in
      match server (srv w) with
      | None => (w, Pending)
      | Some _ =>
          (emit EvServerClose w,
           match closed with
           | Some err => Rejected err
           | None => Fulfilled
           end)
      end
  end.

(** ** The routing rule and the readiness order, in the spec's words *)

(** A descriptor satisfies a request for interface [p], method [name],
    group [g] and version [v] when its interface is [p], its group is
    exactly [g], its version is [v] unless [v] is the wildcard, and its
    method table contains [name]. *)
Definition satisfies (p name g v : string) (s : IDubboService) : Prop :=
  dubboInterface s = p
  ∧ group s = Some g
  ∧ (v = "*" ∨ version s = Some v)
  ∧ name ∈ method_names s.

(** What the code accepts: the same, with the method looked up by a
    property read, which also finds the names that the table inherits. *)
Definition accepts (p name g v : string) (s : IDubboService) : Prop :=
  dubboInterface s = p
  ∧ group s = Some g
  ∧ (v = "*" ∨ version s = Some v)
  ∧ (name ∈ method_names s ∨ name ∈ Object_prototype_names).

(** [l] is the first reference of [registered] whose descriptor the
    code accepts for the request. *)
Definition first_accepting (h : store) (p name g v : string)
    (registered : list loc) (l : loc) : Prop :=
  ∃ pre post,
    registered = (pre ++ l :: post)%list
    ∧ accepts p name g v (h l)
    ∧ Forall (λ l', ¬ accepts p name g v (h l')) pre.

(** What follows [registry.ready()] in the log of the listen callback:
    the rejection left unhandled when the registry is not ready; else
    the announcement of [urls], and the rejection left unhandled when
    the announcement fails. *)
Definition after_ready (r : IRegistry) (urls : list (string * string))
  : list event :=
  match registry_ready r with
  | Throw err => [EvUnhandledRejection err]
  | Return _ =>
      EvRegistyServices urls ::
      match registry_registyServices r with
      | AnnounceReturns => []
      | AnnounceRejects e => [EvUnhandledRejection e]
      | AnnounceThrows e => [EvUnhandledRejection e]
      end
  end.

(** Calls of [this.resolve()] and [this.reject(err)]. *)
Definition is_settle (e : event) : bool :=
  match e with EvReadyResolve | EvReadyReject _ => true | _ => false end.

(** The request of the Echo scenario for a name that the method table
    of Echo does not have but inherits. *)
Definition toString_request : Request :=
  {| methodName := "toString";
     args := Some [];
     attachment := {| path := "Echo"; att_group := Some "";
                      att_version := Some "0.0.0" |} |}.

(** An arbitrary choice for the built-in members, for the scenarios in
    which none of them is called. *)
Definition unused_builtins :
  string → IDubboService → list value → Context → completion value :=
  λ _ _ _ _, Return VUndefined.

Definition is_announce (e : event) : bool :=
  match e with EvRegistyServices _ => true | _ => false end.

Definition is_resolve (e : event) : bool :=
  match e with EvReadyResolve => true | _ => false end.

Definition is_bound (e : event) : bool :=
  match e with EvBound => true | _ => false end.

(** Some event accepted by [a] occurs in the log strictly before some
    event accepted by [b]. *)
Fixpoint occurs_before (a b : event → bool) (tr : list event) : bool :=
  match tr with
  | [] => false
  | e :: tr' => (a e && existsb b tr') || occurs_before a b tr'
  end.

(** ** The scenarios of the spec *)

(** Service [Echo], method [say(x)] returning [x]. *)
Definition say : Handler := λ args _, Return (default VUndefined (head args)).

(** The same method throwing [Error("boom")]. *)
Definition say_boom : Handler := λ _ _, Throw (Error "boom").

Definition Echo (f : Handler) : IDubboService :=
  {| dubboInterface := "Echo";
     group := None;
     version := None;
     methods := [("say", f)] |}.

Definition echo_store (f : Handler) : store := λ _, Echo f.

Definition echo_env : Env :=
  {| ip_address := "10.0.0.1";
     process_pid := 4242;
     Date_now := λ _, 1700000000000 |}.

Definition echo_registry (ready : completion unit) : IRegistry :=
  {| registry_ready := ready; registry_registyServices := AnnounceReturns |}.

Definition echo_props (ready : completion unit) : IDubboServerProps :=
  {| props_registry := Some (echo_registry ready);
     props_services := Some [("echo", 0%nat)];
     props_dubboSetting := None |}.

Definition empty_props : IDubboServerProps :=
  {| props_registry := Some (echo_registry (Return ()));
     props_services := Some [];
     props_dubboSetting := None |}.

(** The world in which a server built from [props] starts. *)
Definition boot (props : IDubboServerProps) (h : store) : option World :=
  match new_DubboServer 5 props with
  | Return s => Some {| srv := s; objects := h; log := [] |}
  | Throw _ => None
  end.

(** The Echo server after its first bind on port 20880 succeeded. *)
Definition echo_world (f : Handler) (ready : completion unit) : option World :=
  listen echo_env [(20880, Bound)] <$> boot (echo_props ready) (echo_store f).

Definition echo_request (v : option string) : Request :=
  {| methodName := "say";
     args := Some [VStr "hi"];
     attachment := {| path := "Echo"; att_group := Some ""; att_version := v |} |}.

(** Processing a decoded request in a world, with the server's own
    middlewares. *)
Definition process (checkRetValHessian : value → bool)
    (applyInherited :
       string → IDubboService → list value → Context → completion value)
    (w : World) (r : Request) : Context :=
  invokeComposeChainRequest checkRetValHessian applyInherited (objects w)
    (serviceRouter (srv w)) (middlewares (srv w)) r.

(** A middleware that would be noticed: it throws as soon as it runs. *)
Definition tripwire : Middleware := λ _ _, throw (Error "middleware ran").

(** The Echo service objects as registration leaves them. *)
Definition echo_registered (f : Handler) : store :=
  λ _, set_meta "" "0.0.0" (Echo f).

(** The server that the constructor builds from [echo_props ready]. *)
Definition echo_server (ready : completion unit) : DubboServer :=
  {| readyPromise := Pending;
     retry := {| retryNum := 0; maxRetryNum := 5 |};
     port := None;
     server := None;
     dubboSetting := None;
     registry := Some (echo_registry ready);
     services := Some [("echo", 0%nat)];
     serviceRouter := ∅;
     middlewares := [] |}.

(** Attempts to bind that ended with an error, on the ports tried. *)
Definition failed (fails : list (Z * value)) : list (Z * bind_outcome) :=
  (λ x, (x.1, BindError x.2)) <$> fails.

(** What [registerServices] hands to the registry in the world [w]. *)
Definition announced (env : Env) (w : World) (entries : list (string * loc))
  : list (string * string) :=
  (register_loop env (port (srv w)) (dubboSetting (srv w)) 0 entries
     (objects w, serviceRouter (srv w), [])).2.

(** ** Kinds of middleware *)

(** A middleware that does nothing but call [next]. *)
Definition passes_through (m : Middleware) : Prop :=
  ∀ this next st, m this next st = next st.


(** A middleware that answers by itself: it rewrites the context with
    [g] and returns without calling [next]. *)
Definition answers_itself (g : Context → Context) (m : Middleware) : Prop :=
  ∀ this next st,
    m this next st = ({| ctx := g (ctx st); index := index st |}, Return ()).

Definition pass : Middleware := λ _ next, next.

Definition cached : Middleware :=
  λ _ _, modify_ctx (λ c, set_body (VStr "cached") (set_status OK c)).

(** ** Registration, entry by entry *)

(** The group and version that registration gives to the entry
    [name] of the service map. *)
Definition meta_of (dubboSetting : option DubboSetting) (name iface : string)
  : string * string :=
  match dubboSetting with
  | Some getDubboSetting => getDubboSetting name iface
  | None => ("", "0.0.0")
  end.

(** The pair announced for the entry [e], read off the service objects
    [h0] as they were before registration. *)
Definition url_of (env : Env) (port : option Z)
    (dubboSetting : option DubboSetting) (h0 : store) (k : nat)
    (e : string * loc) : string * string :=
  let m := meta_of dubboSetting e.1 (dubboInterface (h0 e.2)) in
  (dubboInterface (h0 e.2), buildUrl env port k (set_meta m.1 m.2 (h0 e.2))).

(** Occurrences of a character in a string. *)
Fixpoint count_char (c : ascii) (s : string) : nat :=
  match s with
  | EmptyString => 0
  | String x s' => (if Ascii.eqb x c then 1 else 0) + count_char c s'
  end.

(** The error with which readiness is rejected when no port is found. *)
Definition no_port : value :=
  Error "Oops, dubbo server can not start, can not find available port".

(** The Echo server as constructed, before [listen] has run. *)
Definition echo_boot (ready : completion unit) : World :=
  {| srv := echo_server ready; objects := echo_store say; log := [] |}.

(** Six attempts to bind that all find the port in use. *)
Definition six_failures : list (Z * value) :=
  (λ p, (p, Error "EADDRINUSE")) <$> [20880; 20881; 20882; 20883; 20884; 20885].

(** * Routing *)

Section Routing.

Implicit Types (h : store) (ls : list loc) (q : IDubboService → bool).

Lemma get_method_is_Some name (ms : list (string * Handler)) :
  is_Some (get_method name ms) ↔ name ∈ ms.*1.
Proof.
  induction ms as [|[k f] ms IH]; simpl.
  - split; [intros [? [=]] | intros ?%elem_of_nil; done].
  - destruct (String.eqb k name) eqn:E.
    + apply String.eqb_eq in E as ->. split; [left | eauto].
    + apply String.eqb_neq in E. rewrite IH. split; [by right |].
      intros [?|?]%elem_of_cons; [congruence | done].
Qed.

Lemma get_member_is_Some name (ms : list (string * Handler)) :
  is_Some (get_member name ms) ↔ name ∈ ms.*1 ∨ name ∈ Object_prototype_names.
Proof.
  unfold get_member. rewrite <-get_method_is_Some.
  destruct (get_method name ms) as [f|].
  - split; [left|]; eauto.
  - case_bool_decide as Hn.
    + split; [by right | eauto].
    + split; [intros [? [=]] | intros [[? [=]]|?]; done].
Qed.

Lemma matches_spec name g v s :
  matches name g v s = true ↔
  group s = Some g ∧ (v = "*" ∨ version s = Some v)
  ∧ (name ∈ method_names s ∨ name ∈ Object_prototype_names).
Proof.
  unfold matches, method_names.
  rewrite !andb_true_iff, orb_true_iff, !bool_decide_eq_true.
  rewrite String.eqb_eq, get_member_is_Some. intuition congruence.
Qed.

Lemma find_ref_Some q h ls l :
  find_ref q h ls = Some l ↔
  ∃ pre post, ls = (pre ++ l :: post)%list ∧ q (h l) = true
              ∧ Forall (λ l', q (h l') = false) pre.
Proof.
  induction ls as [|a ls IH]; simpl.
  - split; [done | intros ([|??] & ? & ? & _); done].
  - destruct (q (h a)) eqn:E.
    + split.
      * intros [= <-]. by exists [], ls.
      * intros ([|b pre] & post & Heq & Hq & Hpre); simplify_eq/=; [done|].
        apply Forall_cons in Hpre as [? _]. congruence.
    + rewrite IH. split.
      * intros (pre & post & -> & ? & ?). exists (a :: pre), post.
        split_and!; [done | done | by constructor].
      * intros ([|b pre] & post & Heq & Hq & Hpre); simplify_eq/=;
          [congruence|].
        apply Forall_cons in Hpre as [_ ?]. eauto.
Qed.

Lemma find_ref_None q h ls :
  find_ref q h ls = None ↔ Forall (λ l, q (h l) = false) ls.
Proof.
  induction ls as [|a ls IH]; simpl; [by split|].
  destruct (q (h a)) eqn:E.
  - split; [done | intros [? _]%Forall_cons; congruence].
  - rewrite IH, Forall_cons. intuition.
Qed.

(** Looking through the candidates of one interface is looking through
    all references with the interface test added. *)
Lemma find_ref_by_interface q h p ls :
  (find_ref q h (filter (λ l, dubboInterface (h l) = p) ls)) =
  find_ref (λ s, bool_decide (dubboInterface s = p) && q s) h ls.
Proof.
  induction ls as [|a ls IH]; [done|].
  rewrite filter_cons. simpl. case_decide as Hp.
  - rewrite bool_decide_eq_true_2 by done. simpl. by rewrite IH.
  - rewrite bool_decide_eq_false_2 by done. simpl. by rewrite IH.
Qed.

(** One turn of the registration loop: interfaces are left alone and
    the service is appended to the candidates of its interface. *)
Lemma register_one_spec env port setting k name l h router out :
  ∃ h' router' out',
    register_one env port setting k (name, l) (h, router, out)
    = (h', router', out')
    ∧ (∀ l', dubboInterface (h' l') = dubboInterface (h l'))
    ∧ (∀ p, default [] (router' !! p) =
            (default [] (router !! p)
             ++ filter (λ x, dubboInterface (h x) = p) [l])%list).
Proof.
  unfold register_one. eexists _, _, _. split; [reflexivity|].
  assert (∀ g v l', dubboInterface
            (store_set l (set_meta g v (h l)) h l') = dubboInterface (h l'))
    as Hif.
  { intros g v l'. unfold store_set.
    destruct (Nat.eqb l' l) eqn:E; [|done].
    by apply Nat.eqb_eq in E as ->. }
  split; [by intros; apply Hif|].
  intros p. rewrite Hif. rewrite filter_cons, filter_nil.
  destruct (router !! dubboInterface (h l)) as [cands|] eqn:Hr.
  - case_decide as Hp.
    + subst p. by rewrite lookup_insert_eq, Hr.
    + rewrite lookup_insert_ne by done. by rewrite app_nil_r.
  - case_decide as Hp.
    + subst p. by rewrite lookup_insert_eq, Hr.
    + rewrite lookup_insert_ne by done. by rewrite app_nil_r.
Qed.

Lemma register_loop_spec env port setting entries : ∀ k h router out,
  ∃ h' router' out',
    register_loop env port setting k entries (h, router, out)
    = (h', router', out')
    ∧ (∀ l', dubboInterface (h' l') = dubboInterface (h l'))
    ∧ (∀ p, default [] (router' !! p) =
            (default [] (router !! p)
             ++ filter (λ x, dubboInterface (h x) = p) entries.*2)%list).
Proof.
  induction entries as [|[name l] entries IH]; intros k h router out.
  - exists h, router, out. split_and!; [done | done |].
    intros p. by rewrite app_nil_r.
  - cbn [register_loop].
    destruct (register_one_spec env port setting k name l h router out)
      as (h1 & r1 & o1 & -> & Hif1 & Hr1).
    destruct (IH (S k) h1 r1 o1) as (h2 & r2 & o2 & -> & Hif2 & Hr2).
    exists h2, r2, o2. split_and!; [done | |].
    + intros l'. by rewrite Hif2, Hif1.
    + intros p. rewrite Hr2, Hr1, <-app_assoc. f_equal.
      rewrite fmap_cons. cbn [snd].
      change (l :: entries.*2) with ([l] ++ entries.*2)%list.
      rewrite filter_app. f_equal.
      apply list_filter_iff. intros x. by rewrite Hif1.
Qed.

End Routing.

Lemma routed_spec p name g v s :
  bool_decide (dubboInterface s = p) && matches name g v s = true
  ↔ accepts p name g v s.
Proof.
  unfold accepts.
  rewrite andb_true_iff, bool_decide_eq_true, matches_spec. done.
Qed.

Lemma routed_spec_false p name g v s :
  bool_decide (dubboInterface s = p) && matches name g v s = false
  ↔ ¬ accepts p name g v s.
Proof. rewrite <-routed_spec. by destruct (_ && _). Qed.

(** After registration, resolution is a search through all registered
    services, in registration order, for the first that satisfies the
    request. *)
Lemma matchService_registered env port setting k entries h0 out0 request :
  ∃ h router out,
    register_loop env port setting k entries (h0, ∅, out0) = (h, router, out)
    ∧ matchService h router request =
      find_ref (λ s, bool_decide (dubboInterface s = path (attachment request))
                     && matches (methodName request)
                          (default "" (att_group (attachment request)))
                          (default "0.0.0" (att_version (attachment request)))
                          s)
        h entries.*2.
Proof.
  destruct (register_loop_spec env port setting entries k h0 ∅ out0)
    as (h & router & out & Heq & Hif & Hr).
  exists h, router, out. split; [done|].
  unfold matchService. rewrite Hr, lookup_empty. cbn [default app].
  rewrite <-find_ref_by_interface. f_equal.
  apply list_filter_iff. intros x. by rewrite Hif.
Qed.

(** For every request and every service map, resolution returns a
    descriptor exactly when it is the first one, in registration order,
    that the code accepts: interface, group and version as requested,
    and the requested method name an own key of the method table or a
    name that the table inherits; it returns nothing exactly when the
    code accepts no registered descriptor. *)
Lemma matchService_first_registered env port setting k entries h0 request :
  let '(h, router, _) :=
    register_loop env port setting k entries (h0, ∅, []) in
  let p := path (attachment request) in
  let name := methodName request in
  let g := default "" (att_group (attachment request)) in
  let v := default "0.0.0" (att_version (attachment request)) in
  (∀ l, matchService h router request = Some l
        ↔ first_accepting h p name g v entries.*2 l)
  ∧ (matchService h router request = None
     ↔ Forall (λ l, ¬ accepts p name g v (h l)) entries.*2).
Proof.
  destruct (matchService_registered env port setting k entries h0 [] request)
    as (h & router & out & -> & ->).
  cbv zeta. split.
  - intros l. rewrite find_ref_Some. unfold first_accepting.
    setoid_rewrite routed_spec. setoid_rewrite routed_spec_false. done.
  - rewrite find_ref_None. by setoid_rewrite routed_spec_false.
Qed.

(** C3: the Echo server, asked for the method [toString].  The method
    table of Echo has the one key [say], so by the rule of the spec no
    registered descriptor satisfies the request; the property read
    [s.methods[methodName]] finds the [toString] that every object
    inherits, and resolution returns the Echo service. *)
Theorem echo_toString_resolves :
  ∃ w, echo_world say (Return ()) = Some w
       ∧ matchService (objects w) (serviceRouter (srv w)) toString_request
         = Some 0%nat
       ∧ method_names (objects w 0%nat) = ["say"]
       ∧ Forall (λ l, ¬ satisfies "Echo" "toString" "" "0.0.0" (objects w l))
           [("echo", 0%nat)].*2.
Proof.
  eexists. split; [reflexivity|]. split; [by vm_compute|].
  split; [by vm_compute|].
  repeat constructor. intros (_ & _ & _ & Hin).
  replace (method_names _) with ["say"] in Hin by (by vm_compute).
  by apply list_elem_of_singleton in Hin.
Qed.

(** C10: a request whose attachment omits the version is resolved as a
    request for version "0.0.0", and one that omits the group as a
    request for group "". *)
Theorem matchService_defaults h router name a p g v :
  matchService h router
    {| methodName := name; args := a;
       attachment := {| path := p; att_group := g; att_version := None |} |}
  = matchService h router
      {| methodName := name; args := a;
         attachment := {| path := p; att_group := g;
                          att_version := Some "0.0.0" |} |}
  ∧ matchService h router
      {| methodName := name; args := a;
         attachment := {| path := p; att_group := None; att_version := v |} |}
    = matchService h router
        {| methodName := name; args := a;
           attachment := {| path := p; att_group := Some "";
                            att_version := v |} |}.
Proof. by split. Qed.

(** * Request processing *)

Section Pipeline.

Variable checkRetValHessian : value → bool.
Variable applyInherited :
  string → IDubboService → list value → Context → completion value.

(** Called the way koa-compose calls it, the terminal step sets the
    status and then fails on the assignment to [this.body], whatever
    the handler did. *)
Lemma handleRequest_this_undefined h service request next st :
  handleRequest checkRetValHessian applyInherited h service request
    ThisUndefined next st
  = ({| ctx := set_status OK (ctx st); index := index st |},
     Throw (TypeError "Cannot set properties of undefined (setting 'body')")).
Proof.
  unfold handleRequest, try_catch, mbind, M_bind, get_ctx, modify_ctx. simpl.
  destruct (get_member _ _) as [m|]; simpl; [|done].
  destruct (apply_member _ _ _ _ _) as [res|e]; simpl; [|done].
  by destruct (checkRetValHessian res).
Qed.

(** Had the step been called on the context, it would have stored the
    handler's result, or the error thrown by the handler or raised for a
    result that is not representable, and left the status at OK. *)
Lemma handleRequest_this_context h service request next st f :
  get_method (methodName request) (methods (h service)) = Some f →
  handleRequest checkRetValHessian applyInherited h service request
    ThisContext next st
  = ({| ctx :=
          set_body
            match f (default [] (args request)) (set_status OK (ctx st)) with
            | Return res =>
                if checkRetValHessian res then res
                else Error (path (attachment request) +:+ "#" +:+
                            methodName request +:+
                            " return value not hessian type")
            | Throw e => e
            end
            (set_status OK (ctx st));
        index := index st |},
     Return ()).
Proof.
  intros Hf.
  unfold handleRequest, try_catch, mbind, M_bind, get_ctx, modify_ctx,
    get_member. simpl.
  rewrite Hf. simpl. destruct (f _ _) as [res|e]; simpl; [|done].
  by destruct (checkRetValHessian res).
Qed.

(** C2: for every request that resolves to a registered service,
    served with no middleware registered: whatever the matched handler
    does, and so when it throws, the catch clause fails on [this.body]
    in its turn, and the context comes back with status SERVER_ERROR
    and that TypeError as body, not with status OK and the thrown
    error. *)
Theorem matched_request_server_error h router request l :
  matchService h router request = Some l →
  invokeComposeChainRequest checkRetValHessian applyInherited h router []
    request
  = {| request := request;
       status := Some SERVER_ERROR;
       body := Some (TypeError
                 "Cannot set properties of undefined (setting 'body')") |}.
Proof.
  intros Hm. unfold invokeComposeChainRequest. rewrite Hm.
  cbn [app]. unfold compose. cbn [dispatch].
  rewrite bool_decide_eq_false_2 by (simpl; lia).
  by rewrite handleRequest_this_undefined.
Qed.

(** C4: for every decoded request with no routing match, the returned
    context has status SERVICE_NOT_FOUND and its body is an error
    naming the path, the method, the group and the version; the result
    is this one whatever middlewares are registered, so neither a
    registered middleware nor the terminal step has run. *)
Theorem no_match_service_not_found h router mws request :
  matchService h router request = None →
  invokeComposeChainRequest checkRetValHessian applyInherited h router mws request
  = {| request := request;
       status := Some SERVICE_NOT_FOUND;
       body := Some (Error
         ("Service not found with " +:+ path (attachment request) +:+
          " and " +:+ methodName request +:+
          ", group:" +:+ default "" (att_group (attachment request)) +:+
          ", version:" +:+
          default "undefined" (att_version (attachment request)))) |}.
Proof.
  intros Hm. unfold invokeComposeChainRequest. by rewrite Hm.
Qed.

End Pipeline.

(** The theorem on the Echo server, for a request for version 9.9.9 and
    a middleware that throws as soon as it runs. *)
Lemma no_match_service_not_found_witness :
  invokeComposeChainRequest (λ _, true) unused_builtins
    (echo_registered say)
    {["Echo" := [0%nat]]} [tripwire] (echo_request (Some "9.9.9"))
  = {| request := echo_request (Some "9.9.9");
       status := Some SERVICE_NOT_FOUND;
       body := Some (Error
         "Service not found with Echo and say, group:, version:9.9.9") |}.
Proof.
  apply (no_match_service_not_found (λ _, true) unused_builtins
           (echo_registered say)
           {["Echo" := [0%nat]]} [tripwire] (echo_request (Some "9.9.9"))).
  vm_compute. reflexivity.
Defined.

(** C1: the Echo scenario.  The request resolves, the handler returns
    "hi", and the terminal step fails on [this.body]: the context comes
    back with status SERVER_ERROR and the TypeError as body, for every
    representability predicate. *)
Theorem echo_say_hi_server_error checkRetValHessian applyInherited :
  (λ w, process checkRetValHessian applyInherited w (echo_request (Some "0.0.0")))
    <$> echo_world say (Return ())
  = Some {| request := echo_request (Some "0.0.0");
            status := Some SERVER_ERROR;
            body := Some (TypeError
                      "Cannot set properties of undefined (setting 'body')") |}.
Proof.
  vm_compute. by destruct (checkRetValHessian _).
Qed.

(** The theorem on the Echo server whose method throws. *)
Lemma matched_request_server_error_witness :
  invokeComposeChainRequest (λ _, true) unused_builtins
    (echo_registered say_boom)
    {["Echo" := [0%nat]]} [] (echo_request (Some "0.0.0"))
  = {| request := echo_request (Some "0.0.0");
       status := Some SERVER_ERROR;
       body := Some (TypeError
                 "Cannot set properties of undefined (setting 'body')") |}.
Proof.
  apply (matched_request_server_error (λ _, true) unused_builtins
           (echo_registered say_boom)
           {["Echo" := [0%nat]]} (echo_request (Some "0.0.0")) 0%nat).
  vm_compute. reflexivity.
Defined.

(** * Registration URLs *)

Lemma append_assoc (a b c : string) : (a +:+ b) +:+ c = a +:+ b +:+ c.
Proof.
  induction a as [|x a IH]; [done|].
  change (String x ((a +:+ b) +:+ c) = String x (a +:+ b +:+ c)).
  by f_equal.
Qed.

Lemma stringifyPrimitive_qopt (x : option string) :
  stringifyPrimitive (qopt x) = default "" x.
Proof. by destruct x. Qed.

(** Decimal numerals need no escaping. *)
Lemma escape_pretty_N_go (x : N) : ∀ s,
  escape (pretty_N_go x s) = pretty_N_go x (escape s).
Proof.
  induction (N.lt_wf_0 x) as [x _ IH]; intros s.
  destruct (decide (x = 0)%N) as [->|].
  - by rewrite !pretty_N_go_0.
  - rewrite (pretty_N_go_step x s), (pretty_N_go_step x (escape s)) by lia.
    rewrite IH by (apply N.div_lt; lia). f_equal.
    unfold pretty_N_char. repeat case_match; reflexivity.
Qed.

Lemma escape_pretty_N (x : N) : escape (pretty x) = pretty x.
Proof.
  unfold pretty, pretty_N. case_decide; [done|].
  by rewrite escape_pretty_N_go.
Qed.

Lemma escape_pretty_Z (n : Z) : escape (pretty n) = pretty n.
Proof.
  destruct n as [|p|p]; [done | |].
  - change (pretty (Z.pos p)) with (pretty (N.pos p)).
    apply escape_pretty_N.
  - change (pretty (Z.neg p)) with ("-" +:+ pretty (N.pos p)).
    change (escape ("-" +:+ pretty (N.pos p)))
      with (String "-" (escape (pretty (N.pos p)))).
    by rewrite escape_pretty_N.
Qed.

(** C9: the registration URL of every service, as the code builds it.
    It has the shape of the spec, with the method value the comma-join
    of the method names and every query value percent-encoded, except
    that the key written between [generic] and [dynamic] is [protocal]:
    the URL carries no pair [protocol=dubbo]. *)
Theorem buildUrl_shape env port k service :
  buildUrl env port k service =
  "dubbo://" +:+ ip_address env +:+ ":" +:+ tmpl_num port +:+ "/" +:+
  dubboInterface service +:+
  "?group=" +:+ escape (default "" (group service)) +:+
  "&version=" +:+ escape (default "" (version service)) +:+
  "&method=" +:+ escape (join "," (method_names service)) +:+
  "&side=provider&pid=" +:+ pretty (process_pid env) +:+
  "&generic=false&protocal=dubbo&dynamic=true&category=providers&anyhost=true&timestamp="
  +:+ pretty (Date_now env k).
Proof.
  unfold buildUrl, qs_stringify, url_query.
  cbn [fmap list_fmap join]. unfold qs_pair. cbn [fst snd].
  rewrite !stringifyPrimitive_qopt. cbn [stringifyPrimitive].
  rewrite !escape_pretty_Z.
  change (escape "group") with "group".
  change (escape "version") with "version".
  change (escape "method") with "method".
  change (escape "side") with "side".
  change (escape "provider") with "provider".
  change (escape "pid") with "pid".
  change (escape "generic") with "generic".
  change (escape "false") with "false".
  change (escape "protocal") with "protocal".
  change (escape "dubbo") with "dubbo".
  change (escape "dynamic") with "dynamic".
  change (escape "true") with "true".
  change (escape "category") with "category".
  change (escape "providers") with "providers".
  change (escape "anyhost") with "anyhost".
  change (escape "timestamp") with "timestamp".
  rewrite !append_assoc. reflexivity.
Qed.

(** The keys of the query object, for every service: [protocol] is not
    among them. *)
Lemma url_query_keys env k service :
  (url_query env k service).*1 =
  ["group"; "version"; "method"; "side"; "pid"; "generic"; "protocal";
   "dynamic"; "category"; "anyhost"; "timestamp"].
Proof. reflexivity. Qed.

Example echo_url :
  buildUrl echo_env (Some 20880) 0 (set_meta "" "0.0.0" (Echo say)) =
  "dubbo://10.0.0.1:20880/Echo?group=&version=0.0.0&method=say&side=provider&pid=4242&generic=false&protocal=dubbo&dynamic=true&category=providers&anyhost=true&timestamp=1700000000000".
Proof. vm_compute. reflexivity. Qed.

(** * Lifecycle *)

Section Lifecycle.

Variable env : Env.

(** The log of the listen callback: the readiness promise is resolved
    first, then the registry is asked whether it is ready, and only if
    it is are the services announced; a failure of either ends as a
    rejection that nobody handles. *)
Lemma onListening_log w r entries :
  registry (srv w) = Some r →
  services (srv w) = Some entries →
  let w' := onListening env (emit EvBound w) in
  readyPromise (srv w') = promise_resolve (readyPromise (srv w))
  ∧ log w' =
    (log w ++ [EvBound; EvReadyResolve; EvRegistryReady]
     ++ after_ready r (announced env w entries))%list.
Proof.
  intros Hr Hs. unfold onListening, registerServices, announced, after_ready.
  simpl. rewrite Hr. simpl. destruct (registry_ready r); simpl.
  - rewrite Hs.
    destruct (register_loop _ _ _ _ _ _) as [[h router] out] eqn:E.
    destruct (registry_registyServices r); simpl;
      (split; [done|]); by rewrite <-!app_assoc.
  - split; [done|]. by rewrite <-!app_assoc.
Qed.

(** Bind errors below the retry budget, then a successful bind: the
    attempts are logged in turn and the last one ends as above. *)
Lemma listen_log (fails : list (Z * value)) : ∀ w r entries p,
  registry (srv w) = Some r →
  services (srv w) = Some entries →
  (retryNum (retry (srv w)) + List.length fails
   ≤ maxRetryNum (retry (srv w)))%nat →
  let w' := listen env (failed fails ++ [(p, Bound)]) w in
  readyPromise (srv w') = promise_resolve (readyPromise (srv w))
  ∧ ∃ urls,
      log w' =
      (log w ++ (EvListen <$> fails.*1)
       ++ [EvListen p; EvBound; EvReadyResolve; EvRegistryReady]
       ++ after_ready r urls)%list.
Proof.
  induction fails as [|[p1 e1] fails IH]; intros w r entries p Hr Hs Hn.
  - cbn [failed fmap list_fmap app listen].
    destruct (onListening_log
                (emit (EvListen p) (on_srv (with_listener p) w)) r entries)
      as [Hp Hl]; [done | done |].
    split; [done|]. eexists. rewrite Hl. simpl. by rewrite <-!app_assoc.
  - cbn [failed fmap list_fmap app listen fst snd]. fold (failed fails).
    unfold Retry_start. simpl in *.
    destruct (Nat.ltb_spec (retryNum (retry (srv w)))
                (maxRetryNum (retry (srv w)))) as [Hlt|Hge]; [|lia].
    destruct (IH (on_srv
                    (with_retry
                       {| retryNum := S (retryNum (retry (srv w)));
                          maxRetryNum := maxRetryNum (retry (srv w)) |})
                    (emit (EvListen p1) (on_srv (with_listener p1) w)))
                r entries p) as [Hp [urls Hl]]; [done | done | simpl; lia |].
    split; [done|]. exists urls. rewrite Hl. simpl. by rewrite <-!app_assoc.
Qed.

Lemma occurs_before_listens a b (ports : list Z) (tr : list event) :
  a (EvListen 0) = false →
  (∀ p q, a (EvListen p) = a (EvListen q)) →
  occurs_before a b ((EvListen <$> ports) ++ tr)%list = occurs_before a b tr.
Proof.
  intros Ha Hall. induction ports as [|p ports IH]; [done|].
  rewrite fmap_cons. cbn [app occurs_before].
  by rewrite (Hall p 0), Ha, IH.
Qed.

Lemma resolves_listens (ports : list Z) (tr : list event) :
  filter (λ e, is_resolve e = true) ((EvListen <$> ports) ++ tr)%list
  = filter (λ e, is_resolve e = true) tr.
Proof.
  induction ports as [|p ports IH]; [done|].
  rewrite fmap_cons. cbn [app]. rewrite filter_cons.
  by rewrite decide_False.
Qed.

(** C5, as the code has it: for all valid construction arguments,
    when a bind succeeds (after bind errors within the retry budget,
    if any) the promise returned by [ready()] is resolved exactly once,
    in the listen callback itself: after the listener reported that it
    is bound and before the registry is asked whether it is ready, so
    before it is informed of the service URLs.  What follows the
    question to the registry is [after_ready]. *)
Theorem ready_resolves_at_bind budget props s h (fails : list (Z * value)) p :
  new_DubboServer budget props = Return s →
  (List.length fails ≤ budget)%nat →
  let w := listen env (failed fails ++ [(p, Bound)])
             {| srv := s; objects := h; log := [] |} in
  readyPromise (srv w) = Fulfilled
  ∧ (∃ r urls,
       props_registry props = Some r
       ∧ log w =
         ((EvListen <$> fails.*1)
          ++ [EvListen p; EvBound; EvReadyResolve; EvRegistryReady]
          ++ after_ready r urls)%list)
  ∧ List.length (filter (λ e, is_resolve e = true) (log w)) = 1%nat
  ∧ occurs_before is_bound is_resolve (log w) = true
  ∧ occurs_before is_announce is_resolve (log w) = false.
Proof.
  intros Hnew Hn. unfold new_DubboServer, checkProps in Hnew.
  destruct (props_registry props) as [r|] eqn:Hr; [|done].
  destruct (props_services props) as [entries|] eqn:Hs; [|done].
  simpl in Hnew. injection Hnew as <-.
  match goal with |- context [listen env _ ?w0] =>
    destruct (listen_log fails w0 r entries p) as [Hp [urls Hl]];
      [done | done | simpl; lia |]
  end.
  cbv zeta. rewrite Hl. simpl in Hp |- *. split; [done|].
  split; [by exists r, urls|].
  rewrite resolves_listens, !occurs_before_listens by done.
  unfold after_ready.
  by destruct (registry_ready r), (registry_registyServices r).
Qed.

(** The batch handed to the registry is whole: one URL per entry of the
    service map. *)
Lemma register_loop_length port setting entries : ∀ k h router out,
  List.length (register_loop env port setting k entries (h, router, out)).2
  = (List.length out + List.length entries)%nat.
Proof.
  induction entries as [|[name l] entries IH]; intros k h router out.
  - simpl. lia.
  - cbn [register_loop]. unfold register_one at 1.
    rewrite IH, length_app. simpl. lia.
Qed.

(** C6: the registry's [ready()] fails after a successful bind.
    [registerServices] rethrows the error, but the listen callback
    neither awaits nor handles its promise: the error is left as an
    unhandled rejection and the readiness promise, resolved at bind,
    is fulfilled, not rejected with that error.  No registration
    occurs: nothing is announced to the registry, the router stays
    empty and the service objects are untouched. *)
Theorem registry_failure_after_bind budget props s r err h p :
  new_DubboServer budget props = Return s →
  props_registry props = Some r →
  registry_ready r = Throw err →
  let w0 := {| srv := s; objects := h; log := [] |} in
  let w := listen env [(p, Bound)] w0 in
  readyPromise (srv w) = Fulfilled
  ∧ (∀ w', registry (srv w') = Some r →
           (registerServices env w').2 = Throw err)
  ∧ log w = [EvListen p; EvBound; EvReadyResolve; EvRegistryReady;
             EvUnhandledRejection err]
  ∧ serviceRouter (srv w) = ∅
  ∧ objects w = h.
Proof.
  intros Hnew Hr Herr. unfold new_DubboServer, checkProps in Hnew.
  rewrite Hr in Hnew. simpl in Hnew.
  destruct (props_services props) as [entries|]; [|done].
  simpl in Hnew. injection Hnew as <-.
  cbv zeta. unfold listen, onListening. split_and!.
  - unfold registerServices. simpl. by rewrite Herr.
  - intros w' Hw'. unfold registerServices. by rewrite Hw', Herr.
  - unfold registerServices. simpl. by rewrite Herr.
  - unfold registerServices. simpl. by rewrite Herr.
  - unfold registerServices. simpl. by rewrite Herr.
Qed.

(** C7: [close()] before any listener exists.  The registry is closed,
    no close callback is handed out, and the promise stays pending:
    it does not resolve. *)
Theorem close_before_listen_pending budget props s h closed :
  new_DubboServer budget props = Return s →
  let w0 := {| srv := s; objects := h; log := [] |} in
  (close closed w0).2 = Pending
  ∧ log (close closed w0).1 = [EvRegistryClose].
Proof.
  intros Hnew. unfold new_DubboServer, checkProps in Hnew.
  destruct (props_registry props) as [r|] eqn:Hr; [|done].
  destruct (props_services props) as [entries|] eqn:Hs; [|done].
  simpl in Hnew. injection Hnew as <-. done.
Qed.

(** With a listener, [close()] ends as the listener's close callback
    says. *)
Lemma close_listening w r l err :
  registry (srv w) = Some r →
  server (srv w) = Some l →
  (close None w).2 = Fulfilled ∧ (close (Some err) w).2 = Rejected err.
Proof. intros Hr Hl. unfold close. simpl. by rewrite Hr, Hl. Qed.

End Lifecycle.

(** The theorem on the Echo server: one bind error, then a bind. *)
Lemma ready_resolves_at_bind_witness :
  let w := listen echo_env
             (failed [(20879, Error "EADDRINUSE")] ++ [(20880, Bound)])
             {| srv := echo_server (Return ());
                objects := echo_store say;
                log := [] |} in
  readyPromise (srv w) = Fulfilled
  ∧ (∃ r urls,
       props_registry (echo_props (Return ())) = Some r
       ∧ log w =
         ((EvListen <$> [(20879, Error "EADDRINUSE")].*1)
          ++ [EvListen 20880; EvBound; EvReadyResolve; EvRegistryReady]
          ++ after_ready r urls)%list)
  ∧ List.length (filter (λ e, is_resolve e = true) (log w)) = 1%nat
  ∧ occurs_before is_bound is_resolve (log w) = true
  ∧ occurs_before is_announce is_resolve (log w) = false.
Proof.
  apply (ready_resolves_at_bind echo_env 5 (echo_props (Return ()))
           (echo_server (Return ())) (echo_store say)
           [(20879, Error "EADDRINUSE")] 20880).
  - reflexivity.
  - simpl. lia.
Defined.

(** C5, as stated, fails on the Echo server: when its first bind
    succeeds the readiness promise is resolved and the services are
    announced afterwards, not before. *)
Lemma echo_ready_before_announce :
  ∃ w, echo_world say (Return ()) = Some w
       ∧ readyPromise (srv w) = Fulfilled
       ∧ occurs_before is_announce is_resolve (log w) = false
       ∧ occurs_before is_resolve is_announce (log w) = true.
Proof. eexists. split; [reflexivity|]. vm_compute. done. Qed.

(** The theorem on the Echo server with a registry that is down. *)
Lemma registry_failure_after_bind_witness :
  let w0 := {| srv := echo_server (Throw (Error "registry down"));
               objects := echo_store say;
               log := [] |} in
  let w := listen echo_env [(20880, Bound)] w0 in
  readyPromise (srv w) = Fulfilled
  ∧ (∀ w', registry (srv w')
           = Some (echo_registry (Throw (Error "registry down"))) →
           (registerServices echo_env w').2 = Throw (Error "registry down"))
  ∧ log w = [EvListen 20880; EvBound; EvReadyResolve; EvRegistryReady;
             EvUnhandledRejection (Error "registry down")]
  ∧ serviceRouter (srv w) = ∅
  ∧ objects w = echo_store say.
Proof.
  apply (registry_failure_after_bind echo_env 5
           (echo_props (Throw (Error "registry down")))
           (echo_server (Throw (Error "registry down")))
           (echo_registry (Throw (Error "registry down")))
           (Error "registry down") (echo_store say) 20880);
    reflexivity.
Defined.

(** On the Echo server whose registry's [ready()] fails after the bind,
    the readiness promise is fulfilled, not rejected with that error. *)
Lemma echo_registry_failure_ready_fulfilled :
  ∃ w, echo_world say (Throw (Error "registry down")) = Some w
       ∧ readyPromise (srv w) = Fulfilled
       ∧ readyPromise (srv w) ≠ Rejected (Error "registry down").
Proof. eexists. split; [reflexivity|]. vm_compute. done. Qed.

(** The theorem on the Echo server, closed right after construction. *)
Lemma close_before_listen_pending_witness :
  let w0 := {| srv := echo_server (Return ());
               objects := echo_store say;
               log := [] |} in
  (close None w0).2 = Pending
  ∧ log (close None w0).1 = [EvRegistryClose].
Proof.
  apply (close_before_listen_pending 5 (echo_props (Return ()))
           (echo_server (Return ())) (echo_store say) None).
  reflexivity.
Defined.

(** * Construction *)

(** C8, as the code has it: construction validates its arguments before
    anything else; it throws exactly when the registry handle or the
    service map is absent, and succeeds exactly when both are present,
    an empty service map included. *)
Theorem construction_checks_presence budget props :
  ((∃ e, new_DubboServer budget props = Throw e)
   ↔ props_registry props = None ∨ props_services props = None)
  ∧ ((∃ s, new_DubboServer budget props = Return s)
     ↔ is_Some (props_registry props) ∧ is_Some (props_services props)).
Proof.
  unfold new_DubboServer, checkProps.
  destruct (props_registry props) as [r|], (props_services props) as [es|];
    simpl; (split; split);
    try (intros [? [=]]); try (intros [[? [=]] [? [=]]]); eauto;
    try (intros [[=]|[=]]); try (intros [[? [=]] _]); try (intros [_ [? [=]]]).
Qed.

(** C8, as stated, fails on an empty service map: with a registry
    handle and a service map without entries construction does not
    throw. *)
Lemma empty_service_map_accepted :
  props_services empty_props = Some []
  ∧ (∀ e, new_DubboServer 5 empty_props ≠ Throw e)
  ∧ ∃ s, new_DubboServer 5 empty_props = Return s ∧ services s = Some [].
Proof. split_and!; [done | done | by eexists]. Qed.

(** * More on the pipeline *)

Section PipelineMore.

Variable checkRetValHessian : value → bool.
Variable applyInherited :
  string → IDubboService → list value → Context → completion value.

(** Entering [dispatch(i)] with a smaller counter: the counter is set
    and the first middleware of the rest is called. *)
Lemma dispatch_enter (ms : list Middleware) i st :
  index st < i →
  dispatch ms i st =
  match ms with
  | [] => ({| ctx := ctx st; index := i |}, Return ())
  | fn :: rest =>
      fn ThisUndefined (dispatch rest (i + 1)) {| ctx := ctx st; index := i |}
  end.
Proof.
  intros Hi. destruct ms; cbn [dispatch];
    by rewrite bool_decide_eq_false_2 by lia.
Qed.

(** Middlewares that only call [next] hand the context on as it is. *)
Lemma dispatch_pass_prefix (pre rest : list Middleware) :
  Forall passes_through pre →
  ∀ i st, index st < i →
    dispatch (pre ++ rest) i st =
    dispatch rest (i + Z.of_nat (List.length pre))
      {| ctx := ctx st; index := i + Z.of_nat (List.length pre) - 1 |}.
Proof.
  induction 1 as [|m pre Hm _ IH]; intros i st Hi.
  - cbn [app List.length]. rewrite !(dispatch_enter rest) by (simpl; lia).
    simpl. by rewrite Z.add_0_r.
  - cbn [app]. rewrite dispatch_enter by done. rewrite Hm.
    rewrite IH by (simpl; lia). cbn [ctx List.length].
    by replace (i + 1 + Z.of_nat (List.length pre))
      with (i + Z.of_nat (S (List.length pre))) by lia.
Qed.


(** X2: a middleware that answers by itself, behind middlewares that
    only call [next]: the chain stops there, the context comes back as
    this middleware left it, and neither the handler nor anything
    registered after it is run. *)
Theorem answering_middleware_short_circuits h router pre m post g request l :
  matchService h router request = Some l →
  Forall passes_through pre →
  answers_itself g m →
  invokeComposeChainRequest checkRetValHessian applyInherited h router
    (pre ++ m :: post) request
  = g (new_Context request).
Proof.
  intros Hm Hpre Hg. unfold invokeComposeChainRequest. rewrite Hm.
  unfold compose. rewrite <-app_assoc.
  rewrite dispatch_pass_prefix by (done || simpl; lia).
  rewrite dispatch_enter by (simpl; lia). cbn [app]. by rewrite Hg.
Qed.

(** X3: middlewares that only call [next] change nothing: a request
    that resolves is answered as with no middleware at all, by the
    failure of the terminal step on [this.body]. *)
Theorem passing_middlewares_change_nothing h router mws request l :
  matchService h router request = Some l →
  Forall passes_through mws →
  invokeComposeChainRequest checkRetValHessian applyInherited h router mws request
  = invokeComposeChainRequest checkRetValHessian applyInherited h router [] request
  ∧ invokeComposeChainRequest checkRetValHessian applyInherited h router mws request
    = {| request := request;
         status := Some SERVER_ERROR;
         body := Some (TypeError
                   "Cannot set properties of undefined (setting 'body')") |}.
Proof.
  intros Hm Hpre.
  assert (∀ ms, Forall passes_through ms →
    invokeComposeChainRequest checkRetValHessian applyInherited h router ms request
    = {| request := request;
         status := Some SERVER_ERROR;
         body := Some (TypeError
                   "Cannot set properties of undefined (setting 'body')") |})
    as Hall.
  { intros ms Hms. unfold invokeComposeChainRequest. rewrite Hm.
    unfold compose. rewrite dispatch_pass_prefix by (done || simpl; lia).
    rewrite dispatch_enter by (simpl; lia).
    by rewrite handleRequest_this_undefined. }
  split; [|by apply Hall]. rewrite !Hall; [done | constructor | done].
Qed.

End PipelineMore.

Lemma pass_passes_through : passes_through pass.
Proof. by intros ???. Qed.


(** The theorem on the Echo server: a middleware that answers from a
    cache, in front of one that would throw. *)
Lemma answering_middleware_short_circuits_witness :
  invokeComposeChainRequest (λ _, true) unused_builtins
    (echo_registered say)
    {["Echo" := [0%nat]]} ([pass] ++ cached :: [tripwire])
    (echo_request (Some "0.0.0"))
  = (λ c, set_body (VStr "cached") (set_status OK c))
      (new_Context (echo_request (Some "0.0.0"))).
Proof.
  apply (answering_middleware_short_circuits (λ _, true) unused_builtins
           (echo_registered say) {["Echo" := [0%nat]]} [pass] cached
           [tripwire] (λ c, set_body (VStr "cached") (set_status OK c))
           (echo_request (Some "0.0.0")) 0%nat).
  - vm_compute. reflexivity.
  - repeat constructor.
  - intros ???. reflexivity.
Defined.

(** The theorem on the Echo server, with two middlewares that only
    call [next]. *)
Lemma passing_middlewares_change_nothing_witness :
  invokeComposeChainRequest (λ _, true) unused_builtins
    (echo_registered say)
    {["Echo" := [0%nat]]} [pass; pass] (echo_request (Some "0.0.0"))
  = invokeComposeChainRequest (λ _, true) unused_builtins
    (echo_registered say)
      {["Echo" := [0%nat]]} [] (echo_request (Some "0.0.0"))
  ∧ invokeComposeChainRequest (λ _, true) unused_builtins
    (echo_registered say)
      {["Echo" := [0%nat]]} [pass; pass] (echo_request (Some "0.0.0"))
    = {| request := echo_request (Some "0.0.0");
         status := Some SERVER_ERROR;
         body := Some (TypeError
                   "Cannot set properties of undefined (setting 'body')") |}.
Proof.
  apply (passing_middlewares_change_nothing (λ _, true) unused_builtins
           (echo_registered say) {["Echo" := [0%nat]]} [pass; pass]
           (echo_request (Some "0.0.0")) 0%nat).
  - vm_compute. reflexivity.
  - repeat constructor.
Defined.

(** * More on routing and registration *)

Lemma find_ref_weaken (p q : IDubboService → bool) h ls l :
  (∀ s, p s = true → q s = true) →
  find_ref p h ls = Some l →
  ∃ l' pre post, find_ref q h ls = Some l'
                 ∧ ls = (pre ++ l' :: post)%list
                 ∧ (l' = l ∨ l ∈ post).
Proof.
  intros Hpq. induction ls as [|a ls IH]; [done|]. simpl.
  destruct (q (h a)) eqn:Hq.
  - destruct (p (h a)) eqn:Hp.
    + intros [= <-]. exists a, [], ls. auto.
    + intros Hf. exists a, [], ls. split_and!; [done | done |].
      right. apply find_ref_Some in Hf as (pre & post & -> & _ & _).
      apply elem_of_app. right. left.
  - destruct (p (h a)) eqn:Hp; [by rewrite (Hpq _ Hp) in Hq|].
    intros Hf. destruct (IH Hf) as (l' & pre & post & Hl' & -> & Hor).
    by exists l', (a :: pre), post.
Qed.

(** X4: whatever the router and the service objects hold, a service
    that resolution returns is listed in the router under the request's
    path, has the requested group (default ""), has the requested
    version (default "0.0.0") unless the wildcard was requested, and
    answers the property read of the requested method name: the name is
    a key of its method table or one of the names that the table
    inherits, so what the terminal step reads under that name is never
    [undefined]. *)
Theorem matchService_sound h (router : gmap string (list loc)) request l :
  matchService h router request = Some l →
  l ∈ default [] (router !! path (attachment request))
  ∧ is_Some (get_member (methodName request) (methods (h l)))
  ∧ (methodName request ∈ method_names (h l)
     ∨ methodName request ∈ Object_prototype_names)
  ∧ group (h l) = Some (default "" (att_group (attachment request)))
  ∧ (default "0.0.0" (att_version (attachment request)) = "*"
     ∨ version (h l)
       = Some (default "0.0.0" (att_version (attachment request)))).
Proof.
  unfold matchService. intros (pre & post & Hls & Hq & _)%find_ref_Some.
  split.
  - rewrite Hls. apply elem_of_app. right. left.
  - apply matches_spec in Hq as (Hg & Hv & Hn).
    split_and!; [|done|done|done]. by apply get_member_is_Some.
Qed.

(** X5: the wildcard never loses a match.  If a request for some
    version resolves to a service, the same request for version "*"
    resolves too, to that service or to one registered before it. *)
Theorem wildcard_resolves_too h (router : gmap string (list loc))
    name a p g v l :
  matchService h router
    {| methodName := name; args := a;
       attachment := {| path := p; att_group := g; att_version := v |} |}
  = Some l →
  ∃ l' pre post,
    matchService h router
      {| methodName := name; args := a;
         attachment := {| path := p; att_group := g;
                          att_version := Some "*" |} |}
    = Some l'
    ∧ default [] (router !! p) = (pre ++ l' :: post)%list
    ∧ (l' = l ∨ l ∈ post).
Proof.
  unfold matchService. cbn [methodName attachment path att_group att_version].
  apply find_ref_weaken. intros s Hs.
  apply matches_spec in Hs as (Hg & _ & Hn).
  apply matches_spec. split_and!; [done | by left | done].
Qed.

Lemma matchService_sound_witness :
  (0%nat : loc) ∈ default [] (({["Echo" := [0%nat]]} : gmap string (list loc))
                     !! path (attachment toString_request))
  ∧ is_Some (get_member (methodName toString_request)
               (methods (echo_registered say 0%nat)))
  ∧ (methodName toString_request ∈ method_names (echo_registered say 0%nat)
     ∨ methodName toString_request ∈ Object_prototype_names)
  ∧ group (echo_registered say 0%nat)
    = Some (default "" (att_group (attachment toString_request)))
  ∧ (default "0.0.0" (att_version (attachment toString_request)) = "*"
     ∨ version (echo_registered say 0%nat)
       = Some (default "0.0.0"
                 (att_version (attachment toString_request)))).
Proof.
  apply (matchService_sound (echo_registered say) {["Echo" := [0%nat]]}
           toString_request 0%nat).
  vm_compute. reflexivity.
Defined.

Lemma wildcard_resolves_too_witness :
  ∃ l' pre post,
    matchService (echo_registered say) {["Echo" := [0%nat]]}
      {| methodName := "say"; args := None;
         attachment := {| path := "Echo"; att_group := None;
                          att_version := Some "*" |} |}
    = Some l'
    ∧ default [] (({["Echo" := [0%nat]]} : gmap string (list loc)) !! "Echo")
      = (pre ++ l' :: post)%list
    ∧ (l' = 0%nat ∨ (0%nat : loc) ∈ post).
Proof.
  apply (wildcard_resolves_too (echo_registered say) {["Echo" := [0%nat]]}
           "say" None "Echo" None (Some "0.0.0") 0%nat).
  vm_compute. reflexivity.
Defined.

Section RegistrationMore.

Variable env : Env.
Variable port : option Z.
Variable setting : option DubboSetting.

(** Two descriptors that agree on what registration never writes. *)
Lemma set_meta_identity g v (s s0 : IDubboService) :
  dubboInterface s = dubboInterface s0 →
  methods s = methods s0 →
  set_meta g v s = set_meta g v s0.
Proof. intros Hi Hm. unfold set_meta. by rewrite Hi, Hm. Qed.

(** One turn of the loop, written out. *)
Lemma register_one_unfold k name l h router out :
  register_one env port setting k (name, l) (h, router, out) =
  let m := meta_of setting name (dubboInterface (h l)) in
  let s := set_meta m.1 m.2 (h l) in
  (store_set l s h,
   <[dubboInterface (h l) :=
       (default [] (router !! dubboInterface (h l)) ++ [l])%list]> router,
   (out ++ [(dubboInterface (h l), buildUrl env port k s)])%list).
Proof.
  unfold register_one, meta_of. cbv zeta.
  assert (∀ g v, store_set l (set_meta g v (h l)) h l = set_meta g v (h l))
    as Hl by (intros; unfold store_set; by rewrite Nat.eqb_refl).
  rewrite !Hl. cbn [dubboInterface set_meta].
  by destruct (router !! dubboInterface (h l)).
Qed.

Lemma register_loop_nonempty entries : ∀ k h router out,
  (∀ p ls, router !! p = Some ls → ls ≠ []) →
  ∀ p ls, (register_loop env port setting k entries (h, router, out)).1.2 !! p
          = Some ls → ls ≠ [].
Proof.
  induction entries as [|[name l] entries IH]; intros k h router out Hne;
    [done|].
  cbn [register_loop]. rewrite register_one_unfold. cbv zeta.
  apply IH. intros p ls.
  destruct (decide (dubboInterface (h l) = p)) as [<-|Hp].
  - rewrite lookup_insert_eq. intros [= <-]. by destruct (default _ _).
  - rewrite lookup_insert_ne by done. apply Hne.
Qed.

(** X6: after registration the router holds, under each interface
    name, the services of the service map that have this interface, in
    the order of the map, and holds nothing under a name that no service
    has. *)
Theorem router_after_registration k entries h0 out0 p :
  (register_loop env port setting k entries (h0, ∅, out0)).1.2 !! p
  = match filter (λ l, dubboInterface (h0 l) = p) entries.*2 with
    | [] => None
    | ls => Some ls
    end.
Proof.
  destruct (register_loop_spec env port setting entries k h0 ∅ out0)
    as (h & router & out & Heq & _ & Hr).
  pose proof (register_loop_nonempty entries k h0 ∅ out0) as Hne.
  rewrite Heq in Hne |- *. cbn [fst snd] in *.
  specialize (Hr p). rewrite lookup_empty in Hr. cbn [default app] in Hr.
  destruct (router !! p) as [ls|] eqn:Hp; cbn [default] in Hr.
  - rewrite <-Hr. destruct ls; [|done].
    by destruct (Hne (λ _ _, ltac:(by rewrite lookup_empty)) p [] Hp).
  - by rewrite <-Hr.
Qed.

(** X7: what registration does to the service objects.  It never
    changes an interface name or a method table; it leaves alone every
    object that is not in the service map; and an object of the map
    ends with the group and version of the last entry that refers to
    it, so an object exposed under two short names carries the metadata
    of the second only. *)
Theorem store_after_registration entries : ∀ k h0 router0 out0 l,
  let h := (register_loop env port setting k entries
              (h0, router0, out0)).1.1 in
  dubboInterface (h l) = dubboInterface (h0 l)
  ∧ methods (h l) = methods (h0 l)
  ∧ (l ∉ entries.*2 → h l = h0 l)
  ∧ (∀ pre name post,
       entries = (pre ++ (name, l) :: post)%list → l ∉ post.*2 →
       h l = set_meta (meta_of setting name (dubboInterface (h0 l))).1
                      (meta_of setting name (dubboInterface (h0 l))).2
                      (h0 l)).
Proof.
  induction entries as [|[n1 l1] entries IH]; intros k h0 router0 out0 l.
  - cbn. split_and!; [done | done | done |]. by intros [|??] ?? ?.
  - cbn [register_loop]. rewrite register_one_unfold. cbv zeta.
    match goal with |- context [register_loop _ _ _ _ _ (?h1, ?r1, ?o1)] =>
      destruct (IH (S k) h1 r1 o1 l) as (Hi & Hm & Hout & Hlast);
      set (h := (register_loop env port setting (S k) entries
                   (h1, r1, o1)).1.1) in *
    end.
    assert (∀ x, dubboInterface (store_set l1
                   (set_meta (meta_of setting n1 (dubboInterface (h0 l1))).1
                      (meta_of setting n1 (dubboInterface (h0 l1))).2 (h0 l1))
                   h0 x) = dubboInterface (h0 x)
                 ∧ methods (store_set l1
                   (set_meta (meta_of setting n1 (dubboInterface (h0 l1))).1
                      (meta_of setting n1 (dubboInterface (h0 l1))).2 (h0 l1))
                   h0 x) = methods (h0 x)) as Hid.
    { intros x. unfold store_set. destruct (Nat.eqb x l1) eqn:E; [|done].
      by apply Nat.eqb_eq in E as ->. }
    destruct (Hid l) as [Hi1 Hm1].
    split_and!.
    + by rewrite Hi.
    + by rewrite Hm.
    + rewrite fmap_cons. cbn [snd]. intros [Hne Hnot]%not_elem_of_cons.
      rewrite Hout by done. unfold store_set.
      by rewrite (proj2 (Nat.eqb_neq l l1)).
    + intros [|[n2 l2] pre] name post Heq Hpost; simplify_eq/=.
      * rewrite Hout by done. unfold store_set. by rewrite Nat.eqb_refl.
      * rewrite (Hlast pre name post) by done. rewrite Hi1.
        by apply set_meta_identity.
Qed.

(** X8: the batch handed to the registry pairs, entry by entry and in
    the order of the service map, the interface name with the URL built
    from the entry's own group and version; a later entry that shares
    the object does not change a URL already built. *)
Theorem announced_after_registration entries : ∀ k h0 router0 out0,
  (register_loop env port setting k entries (h0, router0, out0)).2
  = (out0 ++ imap (λ i e, url_of env port setting h0 (k + i) e) entries)%list.
Proof.
  assert (∀ k h h0 router out,
            (∀ l, dubboInterface (h l) = dubboInterface (h0 l)
                  ∧ methods (h l) = methods (h0 l)) →
            (register_loop env port setting k entries (h, router, out)).2
            = (out ++ imap (λ i e, url_of env port setting h0 (k + i) e)
                        entries)%list) as Hgen.
  { induction entries as [|[n1 l1] entries IH]; intros k h h0 router out Hid.
    - simpl. by rewrite app_nil_r.
    - cbn [register_loop]. rewrite register_one_unfold. cbv zeta.
      rewrite (IH _ _ h0).
      + rewrite <-app_assoc. f_equal. cbn [imap app]. f_equal.
        * unfold url_of. cbn [fst snd]. destruct (Hid l1) as [Hi Hm].
          rewrite Hi, Nat.add_0_r. do 2 f_equal. by apply set_meta_identity.
        * apply imap_ext. intros i e _. simpl. f_equal. lia.
      + intros l. destruct (Hid l) as [Hi Hm]. unfold store_set.
        destruct (Nat.eqb l l1) eqn:E; [|done].
        apply Nat.eqb_eq in E as ->. done. }
  intros k h0 router0 out0. by apply Hgen.
Qed.

End RegistrationMore.

(** * More on registration URLs *)

Lemma escape_app (a b : string) : escape (a +:+ b) = escape a +:+ escape b.
Proof.
  induction a as [|c a IH]; [done|].
  change (String c a +:+ b) with (String c (a +:+ b)).
  cbn [escape]. rewrite IH. by destruct (unreserved c).
Qed.

(** The names of a joined list are escaped one by one, and so is the
    comma between them. *)
Lemma escape_join_comma (l : list string) :
  escape (join "," l) = join "%2C" (escape <$> l).
Proof.
  induction l as [|x [|y l] IH]; [done | done |].
  change (join "," (x :: y :: l)) with (x +:+ "," +:+ join "," (y :: l)).
  change (join "%2C" (escape <$> x :: y :: l))
    with (escape x +:+ "%2C" +:+ join "%2C" (escape <$> y :: l)).
  by rewrite !escape_app, IH.
Qed.

Lemma count_char_app c (a b : string) :
  count_char c (a +:+ b) = (count_char c a + count_char c b)%nat.
Proof.
  induction a as [|x a IH]; [done|].
  change (String x a +:+ b) with (String x (a +:+ b)).
  cbn [count_char]. rewrite IH. lia.
Qed.

(** Escaping leaves no separator behind. *)
Lemma count_char_escape (s : string) :
  count_char "&" (escape s) = 0%nat ∧ count_char "=" (escape s) = 0%nat.
Proof.
  induction s as [|c s [IH1 IH2]]; [done|].
  change (String c s) with (String c "" +:+ s).
  rewrite escape_app, !count_char_app, IH1, IH2.
  destruct c as [[] [] [] [] [] [] [] []]; vm_compute; done.
Qed.

Lemma count_char_qs_pair kv :
  count_char "&" (qs_pair kv) = 0%nat ∧ count_char "=" (qs_pair kv) = 1%nat.
Proof.
  unfold qs_pair. rewrite !count_char_app.
  destruct (count_char_escape kv.1) as [-> ->].
  by destruct (count_char_escape (stringifyPrimitive kv.2)) as [-> ->].
Qed.

(** X10: [querystring.stringify] as the server uses it: whatever
    characters the keys and values contain, the result has one [=] per
    entry and one [&] between two entries, so no group, version or
    method name can add a parameter to a registration URL or hide
    one. *)
Theorem qs_stringify_separators (obj : list (string * qvalue)) :
  count_char "=" (qs_stringify obj) = List.length obj
  ∧ count_char "&" (qs_stringify obj) = Nat.pred (List.length obj).
Proof.
  unfold qs_stringify.
  induction obj as [|kv [|kv' obj] IH].
  - done.
  - cbn [fmap list_fmap join List.length Nat.pred].
    by destruct (count_char_qs_pair kv) as [-> ->].
  - change (join "&" (qs_pair <$> kv :: kv' :: obj))
      with (qs_pair kv +:+ "&" +:+ join "&" (qs_pair <$> kv' :: obj)).
    rewrite !count_char_app. destruct IH as [-> ->].
    destruct (count_char_qs_pair kv) as [-> ->]. by cbn.
Qed.

(** X9: in the registration URL of every service the method names are
    percent-encoded one by one and separated by the encoded comma
    [%2C], never by a bare comma. *)
Theorem buildUrl_method_names env port k service :
  buildUrl env port k service =
  "dubbo://" +:+ ip_address env +:+ ":" +:+ tmpl_num port +:+ "/" +:+
  dubboInterface service +:+
  "?group=" +:+ escape (default "" (group service)) +:+
  "&version=" +:+ escape (default "" (version service)) +:+
  "&method=" +:+ join "%2C" (escape <$> method_names service) +:+
  "&side=provider&pid=" +:+ pretty (process_pid env) +:+
  "&generic=false&protocal=dubbo&dynamic=true&category=providers&anyhost=true&timestamp="
  +:+ pretty (Date_now env k).
Proof.
  rewrite <-escape_join_comma.
  unfold buildUrl, qs_stringify, url_query.
  cbn [fmap list_fmap join]. unfold qs_pair. cbn [fst snd].
  rewrite !stringifyPrimitive_qopt. cbn [stringifyPrimitive].
  rewrite !escape_pretty_Z.
  change (escape "group") with "group".
  change (escape "version") with "version".
  change (escape "method") with "method".
  change (escape "side") with "side".
  change (escape "provider") with "provider".
  change (escape "pid") with "pid".
  change (escape "generic") with "generic".
  change (escape "false") with "false".
  change (escape "protocal") with "protocal".
  change (escape "dubbo") with "dubbo".
  change (escape "dynamic") with "dynamic".
  change (escape "true") with "true".
  change (escape "category") with "category".
  change (escape "providers") with "providers".
  change (escape "anyhost") with "anyhost".
  change (escape "timestamp") with "timestamp".
  rewrite !append_assoc. reflexivity.
Qed.

(** * More on the lifecycle *)

Section LifecycleMore.

Variable env : Env.

Lemma settles_snoc (l : list event) (e : event) :
  filter (λ e, is_settle e = true) (l ++ [e])%list
  = (filter (λ e, is_settle e = true) l
     ++ if is_settle e then [e] else [])%list.
Proof. rewrite filter_app, filter_cons, filter_nil. by destruct e. Qed.

Lemma settles_emit e w :
  filter (λ e, is_settle e = true) (log (emit e w))
  = (filter (λ e, is_settle e = true) (log w)
     ++ if is_settle e then [e] else [])%list.
Proof. apply settles_snoc. Qed.

(** What [registerServices] leaves alone: among others the readiness
    promise, which it neither resolves nor rejects. *)
Lemma registerServices_keeps w :
  let w' := (registerServices env w).1 in
  readyPromise (srv w') = readyPromise (srv w)
  ∧ registry (srv w') = registry (srv w)
  ∧ server (srv w') = server (srv w)
  ∧ middlewares (srv w') = middlewares (srv w)
  ∧ filter (λ e, is_settle e = true) (log w')
    = filter (λ e, is_settle e = true) (log w).
Proof.
  cbv zeta. unfold registerServices.
  destruct (registry (srv w)) as [r|] eqn:Hr; [|simpl; by rewrite Hr].
  assert (∀ (l : list event) (e : event), is_settle e = false →
            filter (λ e, is_settle e = true) (l ++ [e])%list
            = filter (λ e, is_settle e = true) l) as Hf.
  { intros l e He. rewrite filter_app, filter_cons, filter_nil.
    rewrite decide_False by (by rewrite He). by rewrite app_nil_r. }
  destruct (registry_ready r); simpl; [|by rewrite Hr, Hf].
  destruct (services (srv w)); simpl; [|by rewrite Hr, Hf].
  destruct (register_loop _ _ _ _ _ _) as [[??]?].
  destruct (registry_registyServices r); simpl; by rewrite Hr, !Hf.
Qed.

Lemma onListening_keeps w :
  let w' := onListening env w in
  readyPromise (srv w') = promise_resolve (readyPromise (srv w))
  ∧ registry (srv w') = registry (srv w)
  ∧ server (srv w') = server (srv w)
  ∧ filter (λ e, is_settle e = true) (log w')
    = (filter (λ e, is_settle e = true) (log w) ++ [EvReadyResolve])%list.
Proof.
  unfold onListening. cbv zeta.
  match goal with |- context [registerServices env ?w1] =>
    pose proof (registerServices_keeps w1) as H;
    destruct (registerServices env w1) as [w2 [u|err]]
  end; cbv zeta in H; cbn [fst] in H; destruct H as (Hp & Hr & Hs & _ & Hl).
  - rewrite Hp, Hr, Hs, Hl. unfold resolve. cbn [on_srv log].
    by rewrite settles_emit.
  - rewrite settles_emit. cbn [srv emit]. rewrite Hp, Hr, Hs, Hl.
    unfold resolve. cbn [on_srv log]. rewrite settles_emit.
    by rewrite app_nil_r.
Qed.

Lemma listen_keeps_registry attempts : ∀ w,
  registry (srv (listen env attempts w)) = registry (srv w).
Proof.
  induction attempts as [|[p o] attempts IH]; intros w; [done|].
  cbn [listen]. destruct o.
  - by destruct (onListening_keeps
                   (emit EvBound (emit (EvListen p) (on_srv (with_listener p) w))))
      as (_ & -> & _ & _).
  - destruct (Retry_start _) as [r []]; [by rewrite IH | done].
Qed.

Lemma listen_keeps_server attempts : ∀ w,
  is_Some (server (srv w)) →
  is_Some (server (srv (listen env attempts w))).
Proof.
  induction attempts as [|[p o] attempts IH]; intros w Hs; [done|].
  cbn [listen]. destruct o.
  - destruct (onListening_keeps
                (emit EvBound (emit (EvListen p) (on_srv (with_listener p) w))))
      as (_ & _ & -> & _). by eexists.
  - destruct (Retry_start _) as [r []]; [|by eexists].
    apply IH. by eexists.
Qed.

(** X11: bind errors beyond the retry budget.  The server tries once
    more than the budget that is left, then rejects the readiness
    promise with the "can not find available port" error and stops:
    further answers are not looked at, the registry is never contacted,
    and the router and the service objects stay as they were. *)
Theorem listen_exhausted (fails : list (Z * value)) : ∀ w,
  (maxRetryNum (retry (srv w)) - retryNum (retry (srv w))
   < List.length fails)%nat →
  let n := S (maxRetryNum (retry (srv w)) - retryNum (retry (srv w))) in
  let w' := listen env (failed fails) w in
  readyPromise (srv w') = promise_reject no_port (readyPromise (srv w))
  ∧ log w' = (log w ++ (EvListen <$> take n fails.*1)
              ++ [EvReadyReject no_port])%list
  ∧ serviceRouter (srv w') = serviceRouter (srv w)
  ∧ objects w' = objects w.
Proof.
  induction fails as [|[p1 e1] fails IH]; intros w Hlt; [simpl in Hlt; lia|].
  cbn [failed fmap list_fmap listen fst snd]. fold (failed fails).
  unfold Retry_start. cbn [srv on_srv emit retry with_listener].
  destruct (Nat.ltb_spec (retryNum (retry (srv w)))
              (maxRetryNum (retry (srv w)))) as [Hr|Hr].
  - match goal with |- context [listen env (failed fails) ?w2] =>
      destruct (IH w2) as (Hp & Hl & Hrt & Ho); [simpl in *; lia|];
      rewrite Hp, Hl, Hrt, Ho
    end.
    cbn [srv on_srv emit retry with_listener with_retry readyPromise log
         serviceRouter objects retryNum maxRetryNum].
    split_and!; [done | | done | done].
    replace (maxRetryNum (retry (srv w)) - retryNum (retry (srv w)))%nat
      with (S (maxRetryNum (retry (srv w)) - S (retryNum (retry (srv w)))))
      by lia.
    rewrite <-!app_assoc. by cbn.
  - replace (maxRetryNum (retry (srv w)) - retryNum (retry (srv w)))%nat
      with 0%nat by lia.
    cbn. rewrite take_0. split_and!; [done | | done | done].
    by rewrite <-app_assoc.
Qed.



(** X13: once [listen] has made an attempt, whether it ended in a bind
    or in an error, the listener object exists, so [close()] hands it
    the callback and settles as the listener says: fulfilled without an
    error, rejected with the error it reports. *)
Theorem close_after_listen attempts w r closed :
  attempts ≠ [] →
  registry (srv w) = Some r →
  (close closed (listen env attempts w)).2
  = match closed with Some err => Rejected err | None => Fulfilled end.
Proof.
  intros Hne Hr. unfold close. rewrite listen_keeps_registry, Hr.
  cbn [srv emit].
  assert (is_Some (server (srv (listen env attempts w)))) as [l ->]; [|done].
  destruct attempts as [|[p o] attempts]; [done|]. cbn [listen].
  destruct o.
  - destruct (onListening_keeps
                (emit EvBound (emit (EvListen p) (on_srv (with_listener p) w))))
      as (_ & _ & -> & _). by eexists.
  - destruct (Retry_start _) as [r' []]; [|by eexists].
    apply listen_keeps_server. by eexists.
Qed.



End LifecycleMore.

(** X16: the errors of construction.  Without a registry handle the
    constructor throws "Please specify registry, use Zk or Nacos init
    registry", also when the service map is missing as well; with a
    registry handle and no service map it throws "Please specify dubbo
    service"; it throws nothing else. *)
Theorem construction_errors budget props e :
  new_DubboServer budget props = Throw e
  ↔ (props_registry props = None
     ∧ e = Error "Please specify registry, use Zk or Nacos init registry")
    ∨ (is_Some (props_registry props) ∧ props_services props = None
       ∧ e = Error "Please specify dubbo service").
Proof.
  unfold new_DubboServer, checkProps.
  destruct (props_registry props) as [r|], (props_services props) as [es|];
    simpl; split.
  - done.
  - intros [[? _]|(_ & ? & _)]; done.
  - intros [= <-]. right. eauto.
  - intros [[? _]|(_ & _ & ->)]; done.
  - intros [= <-]. by left.
  - intros [[_ ->]|([? ?] & _)]; done.
  - intros [= <-]. by left.
  - intros [[_ ->]|([? ?] & _)]; done.
Qed.

(** The theorem on the Echo server, whose budget is five retries: six
    bind errors in a row. *)
Lemma listen_exhausted_witness :
  let w := echo_boot (Return ()) in
  let w' := listen echo_env (failed six_failures) w in
  readyPromise (srv w') = promise_reject no_port (readyPromise (srv w))
  ∧ log w' = (log w ++ (EvListen <$> take 6 six_failures.*1)
              ++ [EvReadyReject no_port])%list
  ∧ serviceRouter (srv w') = serviceRouter (srv w)
  ∧ objects w' = objects w.
Proof.
  apply (listen_exhausted echo_env six_failures (echo_boot (Return ()))).
  simpl. lia.
Defined.


(** The theorem on the Echo server after a bind error and a bind, with
    a listener that closes without an error. *)
Lemma close_after_listen_witness :
  (close None
     (listen echo_env [(20880, BindError (Error "EADDRINUSE")); (20881, Bound)]
        (echo_boot (Return ())))).2
  = Fulfilled.
Proof.
  apply (close_after_listen echo_env
           [(20880, BindError (Error "EADDRINUSE")); (20881, Bound)]
           (echo_boot (Return ())) (echo_registry (Return ())) None).
  - discriminate.
  - reflexivity.
Defined.



(** * More on requests that do not resolve *)

(** X17: a request whose attachment omits the version and that does not
    resolve.  Resolution has looked for version "0.0.0", as for the
    request that names it, but the error text reports the version as
    "undefined". *)
Theorem omitted_version_reported_undefined checkRetValHessian applyInherited h
    (router : gmap string (list loc)) mws name a p g :
  matchService h router
    {| methodName := name; args := a;
       attachment := {| path := p; att_group := g; att_version := None |} |}
  = None →
  matchService h router
    {| methodName := name; args := a;
       attachment := {| path := p; att_group := g;
                        att_version := Some "0.0.0" |} |}
  = None
  ∧ body (invokeComposeChainRequest checkRetValHessian applyInherited h router mws
            {| methodName := name; args := a;
               attachment := {| path := p; att_group := g;
                                att_version := None |} |})
    = Some (Error ("Service not found with " +:+ p +:+ " and " +:+ name +:+
                   ", group:" +:+ default "" g +:+ ", version:undefined"))
  ∧ body (invokeComposeChainRequest checkRetValHessian applyInherited h router mws
            {| methodName := name; args := a;
               attachment := {| path := p; att_group := g;
                                att_version := Some "0.0.0" |} |})
    = Some (Error ("Service not found with " +:+ p +:+ " and " +:+ name +:+
                   ", group:" +:+ default "" g +:+ ", version:0.0.0")).
Proof.
  intros Hm. split; [exact Hm|].
  unfold invokeComposeChainRequest.
  change (matchService h router
            {| methodName := name; args := a;
               attachment := {| path := p; att_group := g;
                                att_version := Some "0.0.0" |} |})
    with (matchService h router
            {| methodName := name; args := a;
               attachment := {| path := p; att_group := g;
                                att_version := None |} |}).
  by rewrite Hm.
Qed.

(** The theorem on the Echo server, for a method it does not have. *)
Lemma omitted_version_reported_undefined_witness :
  matchService (echo_registered say) {["Echo" := [0%nat]]}
    {| methodName := "shout"; args := None;
       attachment := {| path := "Echo"; att_group := None;
                        att_version := Some "0.0.0" |} |}
  = None
  ∧ body (invokeComposeChainRequest (λ _, true) unused_builtins
    (echo_registered say)
            {["Echo" := [0%nat]]} []
            {| methodName := "shout"; args := None;
               attachment := {| path := "Echo"; att_group := None;
                                att_version := None |} |})
    = Some (Error ("Service not found with " +:+ "Echo" +:+ " and " +:+
                   "shout" +:+ ", group:" +:+ default "" None +:+
                   ", version:undefined"))
  ∧ body (invokeComposeChainRequest (λ _, true) unused_builtins
    (echo_registered say)
            {["Echo" := [0%nat]]} []
            {| methodName := "shout"; args := None;
               attachment := {| path := "Echo"; att_group := None;
                                att_version := Some "0.0.0" |} |})
    = Some (Error ("Service not found with " +:+ "Echo" +:+ " and " +:+
                   "shout" +:+ ", group:" +:+ default "" None +:+
                   ", version:0.0.0")).
Proof.
  apply (omitted_version_reported_undefined (λ _, true) unused_builtins
           (echo_registered say)
           {["Echo" := [0%nat]]} [] "shout" None "Echo" None).
  vm_compute. reflexivity.
Defined.
